(** * triplestore: the triple model, the binary and N-Triples codecs,
      the dataset decoder, the store snapshots and the N-Triples lexer reads.

    Shallow embedding of [rdf.go] and [codec.go].  Go strings are byte
    sequences and are modelled by [string]; byte streams are [list byte];
    the conversions [[]byte(s)] and [string(b)] are [list_byte_of_string]
    and [string_of_list_byte].  A [uint32] is an [N] with its wrap-around
    written out.  An [io.Reader] is an in-memory stream, the list of the
    bytes not read yet; an [io.Writer] is a sink with a state.  A value of
    type [Triple] given to the encoders is a [*triple] that is not nil.

    The indexed store and the lexer have no code among the source files;
    the modules [store] and [lexer] model them from the description of the
    system, and [lexer] carries the tables of the lexer tests that are in
    [codec.go]. *)

From Stdlib Require Import List String Ascii Bool NArith Arith Lia Permutation.
From Stdlib.Strings Require Import Byte.
Import ListNotations.

Local Open Scope string_scope.
Local Open Scope list_scope.
Local Open Scope nat_scope.

(* ===================================================================== *)
(** ** rdf.go: the triple model                                           *)
(* ===================================================================== *)

Module rdf.

(** [type literal struct { typ, val string }] *)
Record literal := mkLiteral { typ : string; val : string }.

(** [type object struct { isLit bool; resourceID string; lit literal }] *)
Record object := mkObject { isLit : bool; resourceID : string; lit : literal }.

(** [type triple struct { sub subject; pred predicate; obj object }] *)
Record triple := mkTriple { sub : string; pred : string; obj : object }.

(** A value of the interface type [Triple]: the nil interface, or a
    [*triple], which may itself be a nil pointer. *)
Inductive Triple :=
| NilTriple
| PtrTriple (p : option triple).

Definition XsdString := "xsd:string".
Definition XsdBoolean := "xsd:boolean".
Definition XsdInteger := "xsd:integer".

Definition Type_ (l : literal) : string := typ l.
Definition Value (l : literal) : string := val l.

Definition Object (t : triple) : object := obj t.
Definition Subject (t : triple) : string := sub t.
Definition Predicate (t : triple) : string := pred t.

Definition Literal (o : object) : literal * bool := (lit o, isLit o).
Definition ResourceID (o : object) : string * bool := (resourceID o, negb (isLit o)).

(** [func (o object) Equal(other Object) bool] *)
Definition object_Equal (o other : object) : bool :=
  let '(lit, ok) := Literal o in
  let '(otherLit, otherOk) := Literal other in
  if negb (Bool.eqb ok otherOk) then false
  else if ok then
    String.eqb (Type_ lit) (Type_ otherLit) && String.eqb (Value lit) (Value otherLit)
  else
    let '(resId, ok) := ResourceID o in
    let '(otherResId, otherOk) := ResourceID other in
    if negb (Bool.eqb ok otherOk) then false
    else if ok then String.eqb resId otherResId
    else true.

(** [func (t *triple) Equal(other Triple) bool].  The receiver is a pointer
    ([None] is the nil pointer); [other == nil] holds of the nil interface
    only.  The result [None] is the run-time panic of calling [Subject] on
    a nil [*triple] held by [other]. *)
Definition Equal (t : option triple) (other : Triple) : option bool :=
  match t with
  | None => Some (match other with NilTriple => true | PtrTriple _ => false end)
  | Some t =>
    match other with
    | NilTriple => Some false
    | PtrTriple None => None
    | PtrTriple (Some o) =>
      if negb (String.eqb (Subject t) (Subject o)) then Some false
      else if negb (String.eqb (Predicate t) (Predicate o)) then Some false
      else Some (object_Equal (Object t) (Object o))
    end
  end.

End rdf.

(* ===================================================================== *)
(** ** codec.go: readers, writers and errors                              *)
(* ===================================================================== *)

Module io.

(** The error values the codec meets: the sentinels [io.EOF] and
    [io.ErrUnexpectedEOF], and the values of [errors.New]/[fmt.Errorf]. *)
Inductive error :=
| EOF
| ErrUnexpectedEOF
| errorString (s : string).

Definition Error (e : error) : string :=
  match e with
  | EOF => "EOF"
  | ErrUnexpectedEOF => "unexpected EOF"
  | errorString s => s
  end.

(** [io.ReadFull(r, buf)] with [len(buf) = n] on an in-memory stream whose
    unread bytes are [r]: the unread bytes afterwards, the bytes read and
    the error.  Nothing is read for an empty buffer; [EOF] when no byte
    could be read, [ErrUnexpectedEOF] when some but not all. *)
Definition ReadFull (r : list byte) (n : nat) : list byte * (list byte * option error) :=
  match n with
  | O => (r, ([], None))
  | S _ =>
    match r with
    | [] => (r, ([], Some EOF))
    | _ :: _ =>
      if List.length r <? n then ([], (r, Some ErrUnexpectedEOF))
      else (skipn n r, (firstn n r, None))
    end
  end.

(** [io.Writer]: a sink with a state; [Write] returns the new state and
    the error. *)
Class Writer (W : Type) := Write : W -> list byte -> W * option error.

(** [bytes.Buffer]: appends, never fails. *)
#[global] Instance Buffer_Writer : Writer (list byte) :=
  fun buf p => (buf ++ p, None).

(** A sink that accepts [n] more writes and then rejects every write. *)
Record limited := mkLimited { accepted : list byte; budget : nat }.

#[global] Instance limited_Writer : Writer limited :=
  fun w p =>
    match budget w with
    | O => (w, Some (errorString "write rejected"))
    | S n => (mkLimited (accepted w ++ p) n, None)
    end.

End io.

Module binary.

(** [byte(v)]: the low eight bits. *)
Definition uint8 (v : N) : byte :=
  match Byte.of_N (N.land v 255) with
  | Some b => b
  | None => x00
  end.

(** [binary.BigEndian.PutUint32] *)
Definition PutUint32 (v : N) : list byte :=
  [uint8 (N.shiftr v 24); uint8 (N.shiftr v 16); uint8 (N.shiftr v 8); uint8 v].

(** [binary.BigEndian.Uint32] *)
Definition Uint32 (b : list byte) : N :=
  match b with
  | [b0; b1; b2; b3] =>
    N.lor (N.lor (N.lor (Byte.to_N b3) (N.shiftl (Byte.to_N b2) 8))
                 (N.shiftl (Byte.to_N b1) 16))
          (N.shiftl (Byte.to_N b0) 24)
  | _ => 0%N
  end.

End binary.

(* ===================================================================== *)
(** ** codec.go: the binary codec                                         *)
(* ===================================================================== *)

Module codec.
Import rdf io binary.

(** [type wordLength uint32]: the conversion [wordLength(len(s))] wraps. *)
Definition wordLength (n : nat) : N := (N.of_nat n mod 2 ^ 32)%N.

Definition len (s : string) : nat := String.length s.

Definition resourceTypeEncoding : byte := x00.
Definition literalTypeEncoding : byte := x01.

(** The two buffer writes every field of [encodeTriple] makes: the
    length as a big-endian [wordLength], then the bytes. *)
Definition writeWord (s : string) : list byte :=
  PutUint32 (wordLength (len s)) ++ list_byte_of_string s.

(** [func encodeTriple(t Triple) ([]byte, error)] *)
Definition encodeTriple (t : triple) : list byte * option error :=
  let sub := Subject t in
  let pred := Predicate t in
  let buff := writeWord sub ++ writeWord pred in
  let obj := Object t in
  let '(lit, isLit) := Literal obj in
  let buff :=
    if isLit then
      buff ++ [literalTypeEncoding] ++ writeWord (Type_ lit) ++ writeWord (Value lit)
    else
      let '(resID, _) := ResourceID obj in
      buff ++ [resourceTypeEncoding] ++ writeWord resID in
  (buff, None).

(** [func (enc *binaryEncoder) Encode(tris ...Triple) error] *)
Fixpoint Encode {W} `{Writer W} (w : W) (tris : list triple) : W * option error :=
  match tris with
  | [] => (w, None)
  | t :: tris =>
    let '(b, err) := encodeTriple t in
    match err with
    | Some e => (w, Some e)
    | None =>
      let '(w, err) := Write w b in
      match err with
      | Some e => (w, Some e)
      | None => Encode w tris
      end
    end
  end.

(** [type binaryDecoder struct { r io.Reader; triples []Triple }] *)
Record binaryDecoder := mkDecoder { r : list byte; triples : list triple }.

Definition NewBinaryDecoder (r : list byte) : binaryDecoder := mkDecoder r [].

(** [func (dec *binaryDecoder) readWord() ([]byte, error)] *)
Definition readWord (dec : binaryDecoder) : binaryDecoder * (list byte * option error) :=
  let '(r1, (bs, err)) := ReadFull (r dec) 4 in
  match err with
  | Some e => (mkDecoder r1 (triples dec), ([], Some e))
  | None =>
    let len := Uint32 bs in
    let '(r2, (word, err)) := ReadFull r1 (N.to_nat len) in
    match err with
    | Some _ =>
      (mkDecoder r2 (triples dec),
       ([], Some (errorString "triplestore: binary: cannot decode word")))
    | None => (mkDecoder r2 (triples dec), (word, None))
    end
  end.

(** [fmt.Errorf(field + ": %s", err)] *)
Definition Errorf (field : string) (err : error) : error :=
  errorString (field ++ ": " ++ Error err)%string.

(** [func (dec *binaryDecoder) decodeTriple() (bool, error)] *)
Definition decodeTriple (dec : binaryDecoder) : binaryDecoder * (bool * option error) :=
  let '(dec, (sub, err)) := readWord dec in
  match err with
  | Some EOF => (dec, (true, None))
  | Some e => (dec, (false, Some (Errorf "subject" e)))
  | None =>
    let '(dec, (pred, err)) := readWord dec in
    match err with
    | Some e => (dec, (false, Some (Errorf "predicate" e)))
    | None =>
      let '(r1, (bs, err)) := ReadFull (r dec) 1 in
      let dec := mkDecoder r1 (triples dec) in
      match err with
      | Some e => (dec, (false, Some (Errorf "object type" e)))
      | None =>
        let objType := hd x00 bs in
        if Byte.eqb objType resourceTypeEncoding then
          let '(dec, (resource, err)) := readWord dec in
          match err with
          | Some e => (dec, (false, Some (Errorf "resource" e)))
          | None =>
            let decodedObj :=
              mkObject false (string_of_list_byte resource) (mkLiteral "" "") in
            (mkDecoder (r dec)
               (triples dec ++
                [mkTriple (string_of_list_byte sub) (string_of_list_byte pred) decodedObj]),
             (false, None))
          end
        else
          let '(dec, (litType, err)) := readWord dec in
          match err with
          | Some e => (dec, (false, Some (Errorf "literate type" e)))
          | None =>
            let '(dec, (val, err)) := readWord dec in
            match err with
            | Some e => (dec, (false, Some (Errorf "literate" e)))
            | None =>
              let decodedLiteral :=
                mkLiteral (string_of_list_byte litType) (string_of_list_byte val) in
              let decodedObj := mkObject true "" decodedLiteral in
              (mkDecoder (r dec)
                 (triples dec ++
                  [mkTriple (string_of_list_byte sub) (string_of_list_byte pred) decodedObj]),
               (false, None))
            end
          end
      end
    end
  end.

(** The [for] loop of [Decode], with a bound on the number of iterations;
    [None] when the bound is reached. *)
Fixpoint Decode_loop (fuel : nat) (dec : binaryDecoder)
  : option (binaryDecoder * (list triple * option error)) :=
  match fuel with
  | O => None
  | S fuel =>
    let '(dec, (done, err)) := decodeTriple dec in
    if done then Some (dec, (triples dec, None))
    else match err with
         | Some e => Some (dec, ([], Some e))
         | None => Decode_loop fuel dec
         end
  end.

(** [func (dec *binaryDecoder) Decode() ([]Triple, error)].  Every
    iteration that does not leave the loop consumes input, so one more
    iteration than there are unread bytes is enough ([Decode_total]). *)
Definition Decode (dec : binaryDecoder)
  : option (binaryDecoder * (list triple * option error)) :=
  Decode_loop (S (List.length (r dec))) dec.

End codec.

(* ===================================================================== *)
(** ** The wire format, as the format description gives it                *)
(* ===================================================================== *)

Module wire.
Import rdf io binary codec.

(** [u32 len(x)  bytes(x)] *)
Definition word (w : list byte) : list byte :=
  PutUint32 (N.of_nat (List.length w)) ++ w.

Definition fits (w : list byte) : Prop := (N.of_nat (List.length w) < 2 ^ 32)%N.

(** One complete frame and the triple it stands for.  A kind byte of 0
    announces a resource; the second constructor covers every other
    kind byte. *)
Inductive is_frame : list byte -> triple -> Prop :=
| frame_resource s p rid :
    fits s -> fits p -> fits rid ->
    is_frame (word s ++ word p ++ [x00] ++ word rid)
      (mkTriple (string_of_list_byte s) (string_of_list_byte p)
         (mkObject false (string_of_list_byte rid) (mkLiteral "" "")))
| frame_literal s p k ty v :
    fits s -> fits p -> k <> x00 -> fits ty -> fits v ->
    is_frame (word s ++ word p ++ [k] ++ word ty ++ word v)
      (mkTriple (string_of_list_byte s) (string_of_list_byte p)
         (mkObject true ""
            (mkLiteral (string_of_list_byte ty) (string_of_list_byte v)))).

(** A stream that ends at a triple boundary: complete frames, nothing else. *)
Inductive is_stream : list byte -> list triple -> Prop :=
| stream_nil : is_stream [] []
| stream_cons f t bs ts :
    is_frame f t -> is_stream bs ts -> is_stream (f ++ bs) (t :: ts).

(** The strings of a triple that [encodeTriple] writes all have a length
    that a [wordLength] holds. *)
Definition encodable (t : triple) : Prop :=
  (N.of_nat (len (sub t)) < 2 ^ 32)%N /\
  (N.of_nat (len (pred t)) < 2 ^ 32)%N /\
  if isLit (obj t)
  then (N.of_nat (len (typ (lit (obj t)))) < 2 ^ 32)%N /\
       (N.of_nat (len (val (lit (obj t)))) < 2 ^ 32)%N
  else (N.of_nat (len (resourceID (obj t))) < 2 ^ 32)%N.

(** What [decodeTriple] builds from the frame of [t]: the variant that is
    not active is left at its zero value. *)
Definition decoded (t : triple) : triple :=
  if isLit (obj t)
  then mkTriple (sub t) (pred t) (mkObject true "" (lit (obj t)))
  else mkTriple (sub t) (pred t)
         (mkObject false (resourceID (obj t)) (mkLiteral "" "")).

(** [Equal] on two triples that both exist. *)
Definition equal_triples (a b : triple) : Prop :=
  Equal (Some a) (PtrTriple (Some b)) = Some true.

(** Equality of two lists of triples as multisets, up to [Equal]. *)
Definition multiset_Equal (l1 l2 : list triple) : Prop :=
  exists l2', Permutation l2 l2' /\ Forall2 equal_triples l1 l2'.

(** The field of the frame of [t] that a stream holding only the first
    [k] bytes of the frame cuts, by the label [decodeTriple] gives it. *)
Definition field_at (t : triple) (k : nat) : string :=
  let o1 := 4 + len (sub t) in
  let o2 := o1 + 4 + len (pred t) in
  if k <? o1 then "subject"
  else if k <? o2 then "predicate"
  else if k <? o2 + 1 then "object type"
  else if isLit (obj t) then
    if k <? o2 + 1 + 4 + len (typ (lit (obj t))) then "literate type"
    else "literate"
  else "resource".

(** The labels of the six fields. *)
Definition field_labels : list string :=
  ["subject"; "predicate"; "object type"; "resource"; "literate type"; "literate"].

(** The causes a failed read reports. *)
Definition read_causes : list string :=
  ["EOF"; "unexpected EOF"; "triplestore: binary: cannot decode word"].

(** A string of [2 ^ n * len s] bytes. *)
Fixpoint doubled (n : nat) (s : string) : string :=
  match n with
  | O => s
  | S n => doubled n (s ++ s)%string
  end.

(** A triple whose subject is 4 GiB long. *)
Definition overlong : triple :=
  mkTriple (doubled 32 "a") "p" (mkObject false "o" (mkLiteral "" "")).

End wire.

(* ===================================================================== *)
(** ** Concrete inputs                                                    *)
(* ===================================================================== *)

Module fixtures.
Import rdf io binary codec.

(** A sample of triples: a resource object, a literal of every type tag
    of [rdf.go], a custom tag, and empty strings in every field. *)
Definition sample : list triple :=
  [ mkTriple "me" "knows" (mkObject false "you" (mkLiteral "" ""));
    mkTriple "me" "name" (mkObject true "" (mkLiteral XsdString "donald"));
    mkTriple "me" "male" (mkObject true "" (mkLiteral XsdBoolean "true"));
    mkTriple "me" "age" (mkObject true "" (mkLiteral XsdInteger "32"));
    mkTriple "me" "size" (mkObject true "" (mkLiteral "myinteger" "186"));
    mkTriple "" "" (mkObject false "" (mkLiteral "" ""));
    mkTriple "" "" (mkObject true "" (mkLiteral "" "")) ].

Definition t_res : triple :=
  mkTriple "me" "knows" (mkObject false "you" (mkLiteral "" "")).

Definition t_lit : triple :=
  mkTriple "me" "name" (mkObject true "" (mkLiteral XsdString "donald")).

(** The frame of subject [s], predicate [p], kind byte 2, then the words
    [t] and [v]. *)
Definition kind2_stream : list byte :=
  [x00; x00; x00; x01; x73;
   x00; x00; x00; x01; x70;
   x02;
   x00; x00; x00; x01; x74;
   x00; x00; x00; x01; x76].

End fixtures.

(* ===================================================================== *)
(** ** rdf.go: what [Equal] compares                                      *)
(* ===================================================================== *)

Module model.
Import rdf.

(** Two objects agree: the same variant, and for literals the same
    (type, value) pair, for resources the same identifier. *)
Definition same_object (o1 o2 : object) : Prop :=
  isLit o1 = isLit o2 /\
  if isLit o1
  then typ (lit o1) = typ (lit o2) /\ val (lit o1) = val (lit o2)
  else resourceID o1 = resourceID o2.

End model.

(* ===================================================================== *)
(** ** codec.go: the N-Triples encoder                                    *)
(* ===================================================================== *)

Module ntriples.
Import rdf io.

(** The characters that a string literal of this file cannot hold. *)
Definition quote : string := String (Ascii false true false false false true false false) "".
Definition newline : string := String (Ascii false true false true false false false false) "".

Section Encoder.

(** The constant [XsdDateTime] is used by [Encode] and declared outside
    of [rdf.go]; it is a parameter here. *)
Variable XsdDateTime : string.

(** The [switch lit.Type()] of [Encode]: the zero value of [litType] is
    the empty string. *)
Definition litType (typ : string) : string :=
  if String.eqb typ XsdBoolean then "^^<http://www.w3.org/2001/XMLSchema#boolean>"
  else if String.eqb typ XsdDateTime then "^^<http://www.w3.org/2001/XMLSchema#dateTime>"
  else if String.eqb typ XsdInteger then "^^<http://www.w3.org/2001/XMLSchema#integer>"
  else "".

(** The body of the loop of [Encode] up to the write: what [buff] holds
    for the triple [t]. *)
Definition line (t : triple) : string :=
  let buff := ("<" ++ Subject t ++ "> <" ++ Predicate t ++ "> ")%string in
  let buff :=
    let '(rid, ok) := ResourceID (Object t) in
    if ok then (buff ++ ("<" ++ rid ++ ">"))%string else buff in
  let buff :=
    let '(lit, ok) := Literal (Object t) in
    if ok then (buff ++ (quote ++ Value lit ++ quote ++ litType (Type_ lit)))%string
    else buff in
  (buff ++ (" ." ++ newline))%string.

(** [func (enc *ntriplesEncoder) Encode(tris ...Triple) error] *)
Fixpoint Encode {W} `{Writer W} (w : W) (tris : list triple) : W * option error :=
  match tris with
  | [] => (w, None)
  | t :: tris =>
    let '(w, err) := Write w (list_byte_of_string (line t)) in
    match err with
    | Some e => (w, Some e)
    | None => Encode w tris
    end
  end.

End Encoder.

(** The text after the predicate that the format gives an object. *)
Definition object_text (XsdDateTime : string) (o : object) : string :=
  if isLit o
  then (quote ++ val (lit o) ++ quote ++
        (if String.eqb (typ (lit o)) XsdBoolean
         then "^^<http://www.w3.org/2001/XMLSchema#boolean>"
         else if String.eqb (typ (lit o)) XsdDateTime
         then "^^<http://www.w3.org/2001/XMLSchema#dateTime>"
         else if String.eqb (typ (lit o)) XsdInteger
         then "^^<http://www.w3.org/2001/XMLSchema#integer>"
         else ""))%string
  else ("<" ++ resourceID o ++ ">")%string.

(** The number of times [c] occurs in [s]. *)
Fixpoint occurrences (c : ascii) (s : string) : nat :=
  match s with
  | EmptyString => 0
  | String d s => (if Ascii.eqb d c then 1 else 0) + occurrences c s
  end.

Definition nl : ascii := Ascii false true false true false false false false.

(** A text that is one line: its only end of line is its last character. *)
Definition one_line (s : string) : Prop :=
  exists body, s = (body ++ newline)%string /\ occurrences nl body = 0.

(** The strings of a triple that [Encode] writes as they are. *)
Definition written (t : triple) : list string :=
  [sub t; pred t; if isLit (obj t) then val (lit (obj t)) else resourceID (obj t)].

End ntriples.

(* ===================================================================== *)
(** ** codec.go: the dataset decoder                                      *)
(* ===================================================================== *)

Module dataset.
Import rdf io codec.

(** [type result struct { err error; tris []Triple }] *)
Record result := mkResult { err : option error; tris : list triple }.

Section Decoder.

(** The streams are of type [R]; [run rd] is what
    [dec.newDecoderFunc(rd).Decode()] returns. *)
Context {R : Type} (run : R -> list triple * option error).

(** What the goroutine started for [reader] sends on [results]. *)
Definition worker (reader : R) : result :=
  let '(tris, err) := run reader in mkResult err tris.

(** The loop [for r := range results]: [all] and [errs] after the
    results received so far. *)
Fixpoint receive (results : list result) (all : list triple) (errs : list error)
  : list triple * list error :=
  match results with
  | [] => (all, errs)
  | r :: results =>
    let errs := match err r with Some e => errs ++ [e] | None => errs end in
    receive results (all ++ tris r) errs
  end.

(** The errors among [results], in their order. *)
Definition failures (results : list result) : list error :=
  flat_map (fun r => match err r with Some e => [e] | None => [] end) results.

(** [Decode] once the channel has delivered [results], in this order. *)
Definition Decode_received (results : list result) : list triple * option error :=
  let '(all, errs) := receive results [] [] in
  match errs with
  | e :: _ => (all, Some e)
  | [] => (all, None)
  end.

(** [func (dec *datasetDecoder) Decode() ([]Triple, error)]: every reader
    gets a goroutine that sends one result; the channel holds them all
    and delivers them in the order they were sent, which the scheduler
    decides.  [Decode rs out] holds when [out] is a possible return. *)
Definition Decode (rs : list R) (out : list triple * option error) : Prop :=
  exists arrival,
    Permutation arrival (map worker rs) /\ out = Decode_received arrival.

End Decoder.

(** [NewBinaryDecoder(rd).Decode()] on an in-memory stream.  The loop
    always returns ([Decode_total]); the last branch is never taken. *)
Definition binary_run (rd : list byte) : list triple * option error :=
  match codec.Decode (NewBinaryDecoder rd) with
  | Some (_, res) => res
  | None => ([], None)
  end.

End dataset.

(* ===================================================================== *)
(** ** The indexed store and its snapshots                                *)
(* ===================================================================== *)

Module store.
Import rdf.

(** Modelled from the spec: the [Source] of the indexed store, whose code
    is not among the source files.  It holds the triples added so far, in
    an arena that only grows; the secondary indexes, which no query
    result depends on, are left out. *)
Record Source := mkSource { arena : list triple }.

(** Modelled from the spec: [NewSource]; a [Source] is created empty. *)
Definition NewSource : Source := mkSource [].

(** Modelled from the spec: [Add(triples...)] appends each triple; no
    deduplication. *)
Definition Add (s : Source) (ts : list triple) : Source := mkSource (arena s ++ ts).

(** Modelled from the spec: a [Snapshot] pins the generation of the
    [Source] it was taken from and shares its storage. *)
Record Snapshot := mkSnapshot { generation : nat }.

(** Modelled from the spec: [Source.Snapshot()], a view of exactly the
    triples added up to this call. *)
Definition Source_Snapshot (s : Source) : Snapshot := mkSnapshot (List.length (arena s)).

(** Modelled from the spec: what a [Snapshot] reads from the storage it
    shares with its [Source], in the state [s] the [Source] is in when
    the query is made. *)
Definition view (s : Source) (snap : Snapshot) : list triple :=
  firstn (generation snap) (arena s).

(** Modelled from the spec: [Snapshot.Count()]. *)
Definition Count (s : Source) (snap : Snapshot) : nat := List.length (view s snap).

(** Modelled from the spec: [Snapshot.WithPredObj(predicate, object)]. *)
Definition WithPredObj (s : Source) (snap : Snapshot) (p : string) (o : object)
  : list triple :=
  filter (fun t => String.eqb (pred t) p && object_Equal (obj t) o) (view s snap).

End store.

(* ===================================================================== *)
(** ** The bounded reads of the N-Triples lexer                           *)
(* ===================================================================== *)

Module lexer.

Definition backslash : ascii := Ascii false false true true true false true false.
Definition quote : ascii := Ascii false true false false false true false false.

Definition is_space (c : ascii) : bool :=
  let n := nat_of_ascii c in
  (n =? 32) || (n =? 9) || (n =? 10) || (n =? 13).

(** Modelled from the spec: the bounded read of a token body, whose code
    is not among the source files.  It scans for the terminator [term];
    a backslash and the character after it are content; at a terminator
    the look-ahead [real] on the rest of the input decides whether the
    read stops, the terminator left out, or the terminator is content;
    input that runs out gives no result. *)
Fixpoint bounded_read (real : string -> bool) (term : ascii)
    (input : string) (content : string) : option string :=
  match input with
  | EmptyString => None
  | String c rest =>
    if Ascii.eqb c backslash then
      match rest with
      | EmptyString => None
      | String d rest' =>
        bounded_read real term rest' (content ++ String c (String d ""))%string
      end
    else if Ascii.eqb c term then
      if real rest then Some content
      else bounded_read real term rest (content ++ String c "")%string
    else bounded_read real term rest (content ++ String c "")%string
  end.


Fixpoint skip_space (s : string) : string :=
  match s with
  | EmptyString => EmptyString
  | String c rest => if is_space c then skip_space rest else s
  end.

(** One look-ahead that gives what the tests of the lexer expect: it
    passes over whitespace after the terminator and takes the terminator
    for real when what follows is the end of input or one of [closers].
    It is taken neither from the description, which says otherwise, nor
    from code; what the lexer does at whitespace is known on the inputs of
    the tests only. *)
Definition real_after_space (closers : list ascii) (rest : string) : bool :=
  match skip_space rest with
  | EmptyString => true
  | String d _ => existsb (Ascii.eqb d) closers
  end.

Definition or_empty (res : option string) : string :=
  match res with Some s => s | None => "" end.



(** The two bounded reads: the body of an IRI, after [<], and the body of
    a string literal, after the double quote. *)
Inductive body := IRI_body | literal_body.

(** Modelled from the spec: the terminator of a body. *)
Definition terminator (b : body) : ascii :=
  match b with
  | IRI_body => ">"%char
  | literal_body => quote
  end.

(** Modelled from the spec: the characters after which a terminator is
    real: [.], [<] and the double quote; and after the quote that ends a
    string literal also [^], which the description leaves out and
    [TestLexerReadStringLiteral] requires. *)
Definition closers (b : body) : list ascii :=
  match b with
  | IRI_body => ["."%char; "<"%char; quote]
  | literal_body => ["."%char; "<"%char; quote; "^"%char]
  end.

(** Modelled from the spec: the look-ahead on the character right after
    the terminator: the end of input or a closer makes it real. *)
Definition closes (cs : list ascii) (rest : string) : bool :=
  match rest with
  | EmptyString => true
  | String d _ => existsb (Ascii.eqb d) cs
  end.

Definition starts_with_space (rest : string) : bool :=
  match rest with
  | EmptyString => false
  | String d _ => is_space d
  end.

(** A look-ahead [real] that decides as [closes] does whenever the
    terminator is not followed by whitespace; what it does at whitespace
    is left open. *)
Definition decides_by_next (cs : list ascii) (real : string -> bool) : Prop :=
  forall rest, starts_with_space rest = false -> real rest = closes cs rest.

(** The read of a body with the look-ahead [real]; the empty string when
    the input runs out. *)
Definition read (b : body) (real : string -> bool) (input : string) : string :=
  or_empty (bounded_read real (terminator b) input "").

Definition q : string := String quote "".

(** The cases of [TestLexerReadIRI]: input and expected node. *)
Definition TestLexerReadIRI_cases : list (string * string) :=
  [ ("<", ""); (">", ""); ("", ""); ("z", "");
    ("subject>", "subject");
    ("s  ubject>", "s  ubject");
    ("subject>   <", "subject");
    ("    subject>   <", "    subject");
    ("subject><", "subject");
    ("subje   ct><", "subje   ct");
    ("sub>ject>", "sub>ject");
    ("sub > ject>", "sub > ject");
    ("sub>ject>      ", "sub>ject");
    ("subject", "");
    ("pred>   " ++ q, "pred");
    ("pred>" ++ q, "pred");
    ("resource>.", "resource");
    ("resource> .", "resource");
    ("resource>> .", "resource>");
    ("resource>  .   ", "resource") ]%string.

(** The cases of [TestLexerReadStringLiteral]. *)
Definition TestLexerReadStringLiteral_cases : list (string * string) :=
  [ ("", ""); (q, ""); ("z", "");
    ("lit" ++ q, "lit");
    ("l it" ++ q, "l it");
    ("li" ++ q ++ "t" ++ q, "li" ++ q ++ "t");
    ("li " ++ q ++ "t" ++ q, "li " ++ q ++ "t");
    ("li" ++ q ++ "t" ++ q ++ " .", "li" ++ q ++ "t");
    ("li" ++ q ++ "t" ++ q ++ ".", "li" ++ q ++ "t");
    ("li" ++ q ++ "t" ++ q ++ " .", "li" ++ q ++ "t");
    ("li" ++ q ++ "t" ++ q ++ "  .  ", "li" ++ q ++ "t");
    ("li" ++ q ++ "t" ++ q ++ "^", "li" ++ q ++ "t");
    ("li" ++ q ++ "t" ++ q ++ "^^", "li" ++ q ++ "t");
    ("li" ++ q ++ "t" ++ q ++ " ^", "li" ++ q ++ "t");
    ("li" ++ q ++ "t" ++ q ++ " ^^", "li" ++ q ++ "t");
    ("li" ++ q ++ "t" ++ q ++ "   ^", "li" ++ q ++ "t");
    ("li" ++ q ++ "t" ++ q ++ "     ^^", "li" ++ q ++ "t") ]%string.

(** A read function gives what every case of a test expects. *)
Definition passes (read : string -> string) (cases : list (string * string)) : bool :=
  forallb (fun c => String.eqb (read (fst c)) (snd c)) cases.


End lexer.

(* ===================================================================== *)
(** ** Big-endian words                                                   *)
(* ===================================================================== *)

Section Bits.
Import binary.
Local Open Scope N_scope.

Lemma testbit_255 i : N.testbit 255 i = (i <? 8).
Proof.
  change 255 with (N.ones 8).
  destruct (N.ltb_spec i 8).
  - apply N.ones_spec_low; lia.
  - apply N.ones_spec_high; lia.
Qed.

Lemma testbit_shiftl a n i :
  N.testbit (N.shiftl a n) i = if i <? n then false else N.testbit a (i - n).
Proof.
  destruct (N.ltb_spec i n).
  - now apply N.shiftl_spec_low.
  - now apply N.shiftl_spec_high'.
Qed.

Lemma testbit_byte_high b i : 8 <= i -> N.testbit (Byte.to_N b) i = false.
Proof.
  intros Hi.
  rewrite <- (N.mod_small (Byte.to_N b) (2 ^ 8)).
  - apply N.mod_pow2_bits_high; lia.
  - pose proof (Byte.to_N_bounded b). change (2 ^ 8) with 256. lia.
Qed.

Lemma to_N_uint8 v : Byte.to_N (uint8 v) = N.land v 255.
Proof.
  unfold uint8.
  destruct (Byte.of_N (N.land v 255)) eqn:E.
  - now apply Byte.to_of_N.
  - apply Byte.of_N_None_iff in E.
    exfalso.
    assert (N.land v 255 < 256); [|lia].
    change 255 with (N.ones 8). rewrite N.land_ones.
    apply N.mod_lt. discriminate.
Qed.

Lemma uint8_to_N b : uint8 (Byte.to_N b) = b.
Proof.
  unfold uint8.
  replace (N.land (Byte.to_N b) 255) with (Byte.to_N b).
  - now rewrite Byte.of_to_N.
  - change 255 with (N.ones 8). rewrite N.land_ones, N.mod_small; auto.
    pose proof (Byte.to_N_bounded b). change (2 ^ 8) with 256. lia.
Qed.

Ltac split_ltb :=
  repeat match goal with
         | |- context [N.ltb ?a ?b] => destruct (N.ltb_spec a b)
         end.

Ltac same_bit v i :=
  repeat match goal with
         | |- context [N.testbit v ?j] =>
           lazymatch j with
           | i => fail
           | _ => replace j with i by lia
           end
         end.

Lemma Uint32_PutUint32 v : v < 2 ^ 32 -> Uint32 (PutUint32 v) = v.
Proof.
  intros Hv. unfold PutUint32, Uint32.
  apply N.bits_inj. intros i.
  rewrite !N.lor_spec, !testbit_shiftl, !to_N_uint8, !N.land_spec,
    !N.shiftr_spec', !testbit_255.
  assert (Hhi : 32 <= i -> N.testbit v i = false).
  { intros. rewrite <- (N.mod_small v (2 ^ 32)) by assumption.
    apply N.mod_pow2_bits_high; lia. }
  split_ltb; same_bit v i;
    rewrite ?andb_true_r, ?andb_false_r, ?orb_false_r, ?orb_false_l;
    try reflexivity; try lia.
  symmetry; apply Hhi; lia.
Qed.

Lemma Uint32_lt b : Uint32 b < 2 ^ 32.
Proof.
  destruct b as [|b0 [|b1 [|b2 [|b3 [|? ?]]]]]; try (cbn; lia).
  unfold Uint32.
  set (x := N.lor _ _).
  destruct (N.eq_dec x 0) as [->|Hx]; [cbn; lia|].
  apply N.log2_lt_pow2; [lia|].
  destruct (N.lt_ge_cases (N.log2 x) 32) as [|Hge]; [assumption|exfalso].
  pose proof (N.bit_log2 x Hx) as Hb.
  subst x. revert Hb.
  rewrite !N.lor_spec, !testbit_shiftl.
  split_ltb; try lia.
  rewrite !testbit_byte_high by lia. discriminate.
Qed.

Lemma PutUint32_Uint32 b : List.length b = 4%nat -> PutUint32 (Uint32 b) = b.
Proof.
  destruct b as [|b0 [|b1 [|b2 [|b3 [|? ?]]]]]; try discriminate.
  intros _. unfold PutUint32.
  assert (Hbyte : forall k c,
    (forall i, i < 8 -> N.testbit (Uint32 [b0; b1; b2; b3]) (i + k) = N.testbit (Byte.to_N c) i) ->
    uint8 (N.shiftr (Uint32 [b0; b1; b2; b3]) k) = c).
  { intros k c Hc. rewrite <- (uint8_to_N c) at 1. unfold uint8.
    replace (N.land (N.shiftr (Uint32 [b0; b1; b2; b3]) k) 255)
      with (N.land (Byte.to_N c) 255); [reflexivity|].
    apply N.bits_inj. intros i.
    rewrite !N.land_spec, N.shiftr_spec', testbit_255.
    destruct (N.ltb_spec i 8).
    - now rewrite Hc.
    - now rewrite !andb_false_r. }
  assert (Hlow : forall c,
    (forall i, i < 8 -> N.testbit (Uint32 [b0; b1; b2; b3]) i = N.testbit (Byte.to_N c) i) ->
    uint8 (Uint32 [b0; b1; b2; b3]) = c).
  { intros c Hc. rewrite <- (N.shiftr_0_r (Uint32 _)). apply Hbyte.
    intros i Hi. rewrite N.add_0_r. now apply Hc. }
  repeat f_equal;
    [apply Hbyte | apply Hbyte | apply Hbyte | apply Hlow];
    intros i Hi; unfold Uint32;
    rewrite !N.lor_spec, !testbit_shiftl;
    split_ltb; try lia;
    rewrite ?(testbit_byte_high b3), ?(testbit_byte_high b2),
      ?(testbit_byte_high b1) by lia;
    rewrite ?orb_false_r, ?orb_false_l;
    try (f_equal; lia);
    try reflexivity.
Qed.

End Bits.

(* ===================================================================== *)
(** ** Reads from an in-memory stream                                     *)
(* ===================================================================== *)

Section Reads.
Import rdf io binary codec wire.

Lemma length_list_byte_of_string s :
  List.length (list_byte_of_string s) = String.length s.
Proof.
  induction s as [|a s IH]; [reflexivity|].
  change (list_byte_of_string (String a s))
    with (byte_of_ascii a :: list_byte_of_string s).
  simpl. now rewrite IH.
Qed.

Lemma length_string_of_list_byte l :
  String.length (string_of_list_byte l) = List.length l.
Proof.
  rewrite <- (list_byte_of_string_of_list_byte l) at 2.
  now rewrite length_list_byte_of_string.
Qed.

Lemma ReadFull_app a rest n :
  List.length a = n -> ReadFull (a ++ rest) n = (rest, (a, None)).
Proof.
  intros <-. unfold ReadFull.
  destruct a as [|x a]; [reflexivity|].
  change (List.length (x :: a)) with (S (List.length a)).
  change ((x :: a) ++ rest) with (x :: a ++ rest).
  destruct (Nat.ltb_spec (List.length (x :: a ++ rest)) (S (List.length a))) as [Hlt|_].
  - cbn [List.length] in Hlt. rewrite length_app in Hlt. lia.
  - change (x :: a ++ rest) with ((x :: a) ++ rest).
    change (S (List.length a)) with (List.length (x :: a)).
    rewrite skipn_app, firstn_app, Nat.sub_diag, skipn_all, firstn_all.
    cbn [skipn firstn app]. now rewrite app_nil_r.
Qed.

Lemma ReadFull_inv l n r' bs err :
  ReadFull l n = (r', (bs, err)) ->
  match err with
  | None => l = bs ++ r' /\ List.length bs = n
  | Some e => List.length l < n /\
              (l = [] /\ e = EOF \/ l <> [] /\ e = ErrUnexpectedEOF)
  end.
Proof.
  unfold ReadFull.
  destruct n as [|n].
  - intros [= <- <- <-]. now split.
  - destruct l as [|x l].
    + intros [= <- <- <-]. cbn. split; [lia|now left].
    + destruct (Nat.ltb_spec (List.length (x :: l)) (S n)) as [Hlt|Hge].
      * intros [= <- <- <-]. split; [assumption|right; split; [discriminate|reflexivity]].
      * intros [= <- <- <-]. split.
        -- symmetry. exact (firstn_skipn (S n) (x :: l)).
        -- exact (firstn_length_le (x :: l) Hge).
Qed.

Lemma ReadFull_short l n :
  List.length l < n ->
  exists r' bs e, ReadFull l n = (r', (bs, Some e)) /\
                  e = (if Nat.eqb (List.length l) 0 then EOF else ErrUnexpectedEOF).
Proof.
  intros Hlt. unfold ReadFull.
  destruct n as [|n]; [lia|].
  destruct l as [|x l].
  - now exists [], [], EOF.
  - apply Nat.ltb_lt in Hlt. rewrite Hlt.
    now exists [], (x :: l), ErrUnexpectedEOF.
Qed.

Lemma length_PutUint32 v : List.length (PutUint32 v) = 4.
Proof. reflexivity. Qed.

Lemma length_word w : List.length (word w) = 4 + List.length w.
Proof. unfold word. now rewrite length_app, length_PutUint32. Qed.

(** [readWord] on a complete word. *)
Lemma readWord_word w rest acc :
  fits w ->
  readWord (mkDecoder (word w ++ rest) acc) = (mkDecoder rest acc, (w, None)).
Proof.
  intros Hw. unfold readWord, word. cbn [r triples].
  rewrite <- app_assoc.
  rewrite (ReadFull_app (PutUint32 _) (w ++ rest) 4) by reflexivity.
  rewrite Uint32_PutUint32 by exact Hw.
  rewrite Nat2N.id.
  now rewrite (ReadFull_app w rest (List.length w)).
Qed.

(** What a [readWord] that succeeds has consumed. *)
Lemma readWord_ok_inv dec dec' w :
  readWord dec = (dec', (w, None)) ->
  r dec = word w ++ r dec' /\ triples dec' = triples dec /\ fits w.
Proof.
  unfold readWord.
  destruct (ReadFull (r dec) 4) as [r1 [bs err]] eqn:E1.
  apply ReadFull_inv in E1.
  destruct err as [e|]; [discriminate|].
  destruct E1 as [Hr Hlen].
  destruct (ReadFull r1 (N.to_nat (Uint32 bs))) as [r2 [word' err]] eqn:E2.
  apply ReadFull_inv in E2.
  destruct err as [e|]; [discriminate|].
  destruct E2 as [Hr1 Hwlen].
  intros [= <- <-]. cbn [r triples].
  assert (Hn : N.of_nat (List.length word') = Uint32 bs).
  { rewrite Hwlen. apply N2Nat.id. }
  repeat split.
  - unfold word. rewrite Hn, PutUint32_Uint32 by assumption.
    rewrite Hr, Hr1. now rewrite app_assoc.
  - unfold fits. rewrite Hn. apply Uint32_lt.
Qed.

(** The errors of [readWord], and that it only fails for want of input. *)
Lemma readWord_err_inv dec dec' w e :
  readWord dec = (dec', (w, Some e)) ->
  w = [] /\ triples dec' = triples dec /\ In (Error e) read_causes /\
  (e = EOF <-> r dec = []).
Proof.
  unfold readWord.
  destruct (ReadFull (r dec) 4) as [r1 [bs err]] eqn:E1.
  apply ReadFull_inv in E1.
  destruct err as [e1|].
  - intros [= <- <- <-]. cbn [triples].
    destruct E1 as [_ [[H1 ->]|[H1 ->]]]; repeat split; cbn; auto;
      try discriminate; intros; congruence.
  - destruct E1 as [Hr Hlen].
    destruct (ReadFull r1 (N.to_nat (Uint32 bs))) as [r2 [word' err]] eqn:E2.
    destruct err as [e2|]; [|discriminate].
    intros [= <- <- <-]. cbn [triples]. repeat split; cbn; auto;
      try discriminate.
    intros H. rewrite H in Hr.
    destruct bs; [discriminate Hlen|discriminate Hr].
Qed.

(** [readWord] on a stream that stops inside a word. *)
Lemma readWord_cut w rest acc j :
  fits w -> j < 4 + List.length w ->
  exists dec' e,
    readWord (mkDecoder (firstn j (word w ++ rest)) acc) = (dec', ([], Some e)) /\
    (e = EOF <-> j = 0).
Proof.
  intros Hw Hj. unfold readWord. cbn [r triples].
  destruct (Nat.lt_ge_cases j 4) as [Hlt|Hge].
  - destruct (ReadFull_short (firstn j (word w ++ rest)) 4) as (r' & bs & e & -> & He).
    { rewrite length_firstn. lia. }
    eexists _, e. split; [reflexivity|].
    rewrite He, length_firstn, length_app, length_word.
    destruct j; cbn; [tauto|].
    split; [discriminate|lia].
  - unfold word. rewrite <- app_assoc.
    rewrite firstn_app, length_PutUint32.
    rewrite (firstn_all2 (PutUint32 _)) by (rewrite length_PutUint32; lia).
    rewrite (ReadFull_app (PutUint32 _) _ 4) by reflexivity.
    rewrite Uint32_PutUint32 by exact Hw.
    rewrite Nat2N.id.
    destruct (ReadFull_short (firstn (j - 4) (w ++ rest)) (List.length w))
      as (r' & bs & e & -> & He).
    { rewrite length_firstn. lia. }
    eexists _, _. split; [reflexivity|].
    split; [discriminate|lia].
Qed.

End Reads.

(* ===================================================================== *)
(** ** One iteration of the decoder                                       *)
(* ===================================================================== *)

Section DecodeTriple.
Import rdf io binary codec wire.

Lemma is_frame_length f t : is_frame f t -> 9 <= List.length f.
Proof.
  destruct 1; rewrite !length_app, !length_word; cbn [List.length]; lia.
Qed.

(** A complete frame at the head of the stream is consumed and its triple
    is appended. *)
Lemma decodeTriple_frame f t rest acc :
  is_frame f t ->
  decodeTriple (mkDecoder (f ++ rest) acc) = (mkDecoder rest (acc ++ [t]), (false, None)).
Proof.
  destruct 1 as [s p rid Hs Hp Hrid | s p k ty v Hs Hp Hk Hty Hv];
    unfold decodeTriple; rewrite <- !app_assoc.
  - rewrite readWord_word by assumption.
    rewrite readWord_word by assumption.
    cbn [r triples app ReadFull List.length Nat.ltb Nat.leb skipn firstn hd].
    change (Byte.eqb x00 resourceTypeEncoding) with true. cbv iota.
    now rewrite readWord_word by assumption.
  - rewrite readWord_word by assumption.
    rewrite readWord_word by assumption.
    cbn [r triples app ReadFull List.length Nat.ltb Nat.leb skipn firstn hd].
    destruct (Byte.eqb k resourceTypeEncoding) eqn:E.
    + apply Byte.byte_dec_bl in E. contradiction.
    + rewrite readWord_word by assumption.
      now rewrite readWord_word by assumption.
Qed.

(** The loop is left with [done] only when not a single byte was left
    for the subject length. *)
Lemma decodeTriple_done_inv dec dec' err :
  decodeTriple dec = (dec', (true, err)) ->
  err = None /\ r dec = [] /\ triples dec' = triples dec.
Proof.
  unfold decodeTriple.
  destruct (readWord dec) as [d1 [w1 e1]] eqn:E1.
  destruct e1 as [e1|].
  - apply readWord_err_inv in E1. destruct E1 as (_ & Ht & _ & Heof).
    destruct e1; try discriminate.
    intros [= <- <-]. repeat split; auto. now apply Heof.
  - clear E1.
    destruct (readWord d1) as [d2 [w2 e2]].
    destruct e2; [discriminate|].
    destruct (ReadFull (r d2) 1) as [r1 [bs e3]].
    destruct e3; [discriminate|].
    destruct (Byte.eqb (hd x00 bs) resourceTypeEncoding).
    + destruct (readWord _) as [d4 [w4 e4]]. destruct e4; discriminate.
    + destruct (readWord _) as [d4 [w4 e4]]. destruct e4; [discriminate|].
      destruct (readWord _) as [d5 [w5 e5]]. destruct e5; discriminate.
Qed.

Lemma decodeTriple_empty acc :
  decodeTriple (mkDecoder [] acc) = (mkDecoder [] acc, (true, None)).
Proof. reflexivity. Qed.

(** An iteration that goes on has consumed exactly one frame. *)
Lemma decodeTriple_ok_inv dec dec' :
  decodeTriple dec = (dec', (false, None)) ->
  exists f t, is_frame f t /\ r dec = f ++ r dec' /\ triples dec' = triples dec ++ [t].
Proof.
  unfold decodeTriple.
  destruct (readWord dec) as [d1 [w1 e1]] eqn:E1.
  destruct e1 as [e1|]; [destruct e1; discriminate|].
  apply readWord_ok_inv in E1. destruct E1 as (R1 & T1 & F1).
  destruct (readWord d1) as [d2 [w2 e2]] eqn:E2.
  destruct e2; [discriminate|].
  apply readWord_ok_inv in E2. destruct E2 as (R2 & T2 & F2).
  destruct (ReadFull (r d2) 1) as [r3 [bs e3]] eqn:E3.
  destruct e3; [discriminate|].
  apply ReadFull_inv in E3. destruct E3 as (R3 & L3).
  destruct bs as [|k [|? ?]]; try discriminate L3. cbn [hd].
  destruct (Byte.eqb k resourceTypeEncoding) eqn:Ek.
  - apply Byte.byte_dec_bl in Ek. subst k.
    destruct (readWord _) as [d4 [w4 e4]] eqn:E4.
    destruct e4; [discriminate|].
    apply readWord_ok_inv in E4. cbn [r triples] in E4.
    destruct E4 as (R4 & T4 & F4).
    intros [= <-]. cbn [r triples].
    eexists _, _. split; [exact (frame_resource w1 w2 w4 F1 F2 F4)|].
    split.
    + rewrite R1, R2, R3, R4. now rewrite <- !app_assoc.
    + now rewrite T4, T2, T1.
  - apply Byte.eqb_false in Ek.
    destruct (readWord _) as [d4 [w4 e4]] eqn:E4.
    destruct e4; [discriminate|].
    apply readWord_ok_inv in E4. cbn [r triples] in E4.
    destruct E4 as (R4 & T4 & F4).
    destruct (readWord d4) as [d5 [w5 e5]] eqn:E5.
    destruct e5; [discriminate|].
    apply readWord_ok_inv in E5. destruct E5 as (R5 & T5 & F5).
    intros [= <-]. cbn [r triples].
    eexists _, _. split; [exact (frame_literal w1 w2 k w4 w5 F1 F2 Ek F4 F5)|].
    split.
    + rewrite R1, R2, R3, R4, R5. now rewrite <- !app_assoc.
    + now rewrite T5, T4, T2, T1.
Qed.

(** Every error of an iteration names one of the six fields and the cause
    of the failed read, and leaves the decoded triples as they were. *)
Lemma decodeTriple_err_inv dec dec' done e :
  decodeTriple dec = (dec', (done, Some e)) ->
  done = false /\ triples dec' = triples dec /\
  exists field cause,
    In field field_labels /\ In cause read_causes /\
    e = errorString (field ++ ": " ++ cause)%string.
Proof.
  unfold decodeTriple, Errorf.
  destruct (readWord dec) as [d1 [w1 e1]] eqn:E1.
  destruct e1 as [e1|].
  { apply readWord_err_inv in E1. destruct E1 as (_ & T1 & C1 & _).
    destruct e1; [discriminate| |]; intros [= <- <- <-];
      (split; [reflexivity|split; [assumption|]]);
      eexists "subject", _; (split; [cbn; tauto|split; [exact C1|reflexivity]]). }
  apply readWord_ok_inv in E1. destruct E1 as (_ & T1 & _).
  destruct (readWord d1) as [d2 [w2 e2]] eqn:E2.
  destruct e2 as [e2|].
  { apply readWord_err_inv in E2. destruct E2 as (_ & T2 & C2 & _).
    intros [= <- <- <-]. split; [reflexivity|split; [congruence|]].
    eexists "predicate", _. split; [cbn; tauto|split; [exact C2|reflexivity]]. }
  apply readWord_ok_inv in E2. destruct E2 as (_ & T2 & _).
  destruct (ReadFull (r d2) 1) as [r3 [bs e3]] eqn:E3.
  destruct e3 as [e3|].
  { apply ReadFull_inv in E3. destruct E3 as (_ & C3).
    intros [= <- <- <-]. split; [reflexivity|split; [cbn; congruence|]].
    eexists "object type", _. split; [cbn; tauto|split; [|reflexivity]].
    destruct C3 as [[_ ->]|[_ ->]]; cbn; tauto. }
  destruct (Byte.eqb (hd x00 bs) resourceTypeEncoding).
  - destruct (readWord _) as [d4 [w4 e4]] eqn:E4.
    destruct e4 as [e4|]; [|discriminate].
    apply readWord_err_inv in E4. cbn [triples] in E4.
    destruct E4 as (_ & T4 & C4 & _).
    intros [= <- <- <-]. split; [reflexivity|split; [congruence|]].
    eexists "resource", _. split; [cbn; tauto|split; [exact C4|reflexivity]].
  - destruct (readWord _) as [d4 [w4 e4]] eqn:E4.
    destruct e4 as [e4|].
    { apply readWord_err_inv in E4. cbn [triples] in E4.
      destruct E4 as (_ & T4 & C4 & _).
      intros [= <- <- <-]. split; [reflexivity|split; [congruence|]].
      eexists "literate type", _. split; [cbn; tauto|split; [exact C4|reflexivity]]. }
    apply readWord_ok_inv in E4. cbn [triples] in E4. destruct E4 as (_ & T4 & _).
    destruct (readWord d4) as [d5 [w5 e5]] eqn:E5.
    destruct e5 as [e5|]; [|discriminate].
    apply readWord_err_inv in E5. destruct E5 as (_ & T5 & C5 & _).
    intros [= <- <- <-]. split; [reflexivity|split; [congruence|]].
    eexists "literate", _. split; [cbn; tauto|split; [exact C5|reflexivity]].
Qed.

End DecodeTriple.

(* ===================================================================== *)
(** ** The decoding loop                                                  *)
(* ===================================================================== *)

Section DecodeLoop.
Import rdf io binary codec wire.

Lemma is_stream_length bs ts : is_stream bs ts -> 9 * List.length ts <= List.length bs.
Proof.
  induction 1 as [|f t bs ts Hf _ IH]; [cbn; lia|].
  apply is_frame_length in Hf.
  rewrite length_app. cbn [List.length]. lia.
Qed.

Lemma is_stream_app bs1 ts1 bs2 ts2 :
  is_stream bs1 ts1 -> is_stream bs2 ts2 -> is_stream (bs1 ++ bs2) (ts1 ++ ts2).
Proof.
  induction 1 as [|f t bs ts Hf _ IH]; intros H2; [exact H2|].
  rewrite <- app_assoc. cbn [app]. constructor; auto.
Qed.

(** The loop runs through the complete frames at the head of the stream. *)
Lemma Decode_loop_prefix pre ts :
  is_stream pre ts ->
  forall rest acc fuel,
    Decode_loop (List.length ts + fuel) (mkDecoder (pre ++ rest) acc) =
    Decode_loop fuel (mkDecoder rest (acc ++ ts)).
Proof.
  induction 1 as [|f t bs ts Hf _ IH]; intros rest acc fuel.
  - cbn [List.length Nat.add app]. now rewrite app_nil_r.
  - cbn [List.length Nat.add Decode_loop].
    rewrite <- app_assoc, (decodeTriple_frame f t _ acc Hf).
    rewrite IH, <- app_assoc. reflexivity.
Qed.

(** More iterations do not change a result. *)
Lemma Decode_loop_mono fuel :
  forall dec res fuel',
    Decode_loop fuel dec = Some res -> fuel <= fuel' ->
    Decode_loop fuel' dec = Some res.
Proof.
  induction fuel as [|fuel IH]; intros dec res fuel' H Hle; [discriminate|].
  destruct fuel' as [|fuel']; [lia|].
  cbn [Decode_loop] in *.
  destruct (decodeTriple dec) as [d [done err]].
  destruct done; [assumption|].
  destruct err; [assumption|].
  apply IH; [assumption|lia].
Qed.

(** The loop always leaves with a result when it may run once more than
    there are unread bytes. *)
Lemma Decode_loop_total fuel :
  forall dec, List.length (r dec) < fuel -> exists res, Decode_loop fuel dec = Some res.
Proof.
  induction fuel as [|fuel IH]; intros dec Hlen; [lia|].
  cbn [Decode_loop].
  destruct (decodeTriple dec) as [d [done err]] eqn:E.
  destruct done; [eauto|].
  destruct err; [eauto|].
  apply decodeTriple_ok_inv in E. destruct E as (f & t & Hf & Hr & _).
  apply IH. apply is_frame_length in Hf.
  rewrite Hr, length_app in Hlen. lia.
Qed.

Lemma Decode_total dec : exists res, Decode dec = Some res.
Proof. apply Decode_loop_total. lia. Qed.

(** A clean return: the unread bytes were complete frames, and the
    result is what the decoder held followed by their triples. *)
Lemma Decode_loop_ok_inv fuel :
  forall dec dec' ts,
    Decode_loop fuel dec = Some (dec', (ts, None)) ->
    exists ts', is_stream (r dec) ts' /\ ts = triples dec ++ ts'.
Proof.
  induction fuel as [|fuel IH]; intros dec dec' ts H; [discriminate|].
  cbn [Decode_loop] in H.
  destruct (decodeTriple dec) as [d [done err]] eqn:E.
  destruct done.
  - apply decodeTriple_done_inv in E. destruct E as (_ & Hr & Ht).
    injection H as <- <-. exists []. rewrite Hr, Ht, app_nil_r.
    split; [constructor|reflexivity].
  - destruct err; [discriminate|].
    apply decodeTriple_ok_inv in E. destruct E as (f & t & Hf & Hr & Ht).
    apply IH in H. destruct H as (ts' & Hs & ->).
    exists (t :: ts'). rewrite Hr, Ht, <- app_assoc.
    split; [now constructor|reflexivity].
Qed.

(** A return with an error: no triple comes with it, and the error names
    a field and a cause. *)
Lemma Decode_loop_err_inv fuel :
  forall dec dec' ts e,
    Decode_loop fuel dec = Some (dec', (ts, Some e)) ->
    ts = [] /\
    exists field cause,
      In field field_labels /\ In cause read_causes /\
      e = errorString (field ++ ": " ++ cause)%string.
Proof.
  induction fuel as [|fuel IH]; intros dec dec' ts e H; [discriminate|].
  cbn [Decode_loop] in H.
  destruct (decodeTriple dec) as [d [done err]] eqn:E.
  destruct done; [discriminate|].
  destruct err as [e'|].
  - injection H as <- <- <-.
    apply decodeTriple_err_inv in E. destruct E as (_ & _ & Hshape).
    split; [reflexivity|exact Hshape].
  - eapply IH; eassumption.
Qed.

(** The decoder on a stream of complete frames. *)
Lemma Decode_stream bs ts acc :
  is_stream bs ts ->
  Decode (mkDecoder bs acc) = Some (mkDecoder [] (acc ++ ts), (acc ++ ts, None)).
Proof.
  intros Hs. unfold Decode. cbn [r].
  apply Decode_loop_mono with (fuel := List.length ts + 1).
  - rewrite <- (app_nil_r bs), (Decode_loop_prefix bs ts Hs). reflexivity.
  - apply is_stream_length in Hs. lia.
Qed.

(** The decoder on complete frames followed by anything: the loop goes on
    from the first byte after them. *)
Lemma Decode_after_stream pre ts rest acc res :
  is_stream pre ts ->
  Decode (mkDecoder rest (acc ++ ts)) = Some res ->
  Decode (mkDecoder (pre ++ rest) acc) = Some res.
Proof.
  intros Hs H. unfold Decode in *. cbn [r] in *.
  apply Decode_loop_mono with (fuel := List.length ts + S (List.length rest)).
  - now rewrite (Decode_loop_prefix pre ts Hs).
  - apply is_stream_length in Hs. rewrite length_app. lia.
Qed.

End DecodeLoop.

(* ===================================================================== *)
(** ** A stream cut inside a frame                                        *)
(* ===================================================================== *)

Section Cut.
Import rdf io binary codec wire.

Lemma firstn_word_app w rest j :
  4 + List.length w <= j ->
  firstn j (word w ++ rest) = word w ++ firstn (j - (4 + List.length w)) rest.
Proof.
  intros Hj. rewrite firstn_app, length_word.
  now rewrite firstn_all2 by (rewrite length_word; lia).
Qed.

Lemma readWord_cut_cause w rest acc j :
  fits w -> j < 4 + List.length w ->
  exists dec' e,
    readWord (mkDecoder (firstn j (word w ++ rest)) acc) = (dec', ([], Some e)) /\
    (e = EOF <-> j = 0) /\ In (Error e) read_causes.
Proof.
  intros Hw Hj.
  destruct (readWord_cut w rest acc j Hw Hj) as (dec' & e & H & He).
  exists dec', e. repeat split; try apply He; auto.
  now apply readWord_err_inv in H.
Qed.

Ltac field_is :=
  unfold field_at; cbn [sub pred obj isLit lit typ]; unfold len;
  rewrite ?length_string_of_list_byte;
  repeat match goal with
         | |- context [Nat.ltb ?a ?b] => destruct (Nat.ltb_spec a b); try lia
         end;
  reflexivity.

(** The word at the head of the stream is cut: [readWord] fails, and not
    with a clean end of stream when some byte of it is there. *)
Ltac word_cut w rest acc j Hw Hj d e He Hc :=
  destruct (readWord_cut_cause w rest acc j Hw Hj) as (d & e & -> & He & Hc).

Lemma decodeTriple_cut f t k acc :
  is_frame f t -> 0 < k < List.length f ->
  exists dec' cause,
    decodeTriple (mkDecoder (firstn k f) acc) =
      (dec', (false, Some (errorString (field_at t k ++ ": " ++ cause)%string))) /\
    In cause read_causes.
Proof.
  intros Hf [Hk0 Hk]. unfold decodeTriple, Errorf.
  destruct Hf as [s p rid Hs Hp Hrid | s p kd ty v Hs Hp Hkd Hty Hv];
    rewrite !length_app, !length_word in Hk; cbn [List.length] in Hk.
  - (* a resource frame *)
    destruct (Nat.lt_ge_cases k (4 + List.length s)) as [H1|H1].
    { word_cut s (word p ++ [x00] ++ word rid) acc k Hs H1 d e He Hc.
      replace (field_at _ k) with "subject" by (symmetry; field_is).
      destruct e; [assert (k = 0) by (now apply He); lia| |]; eexists _, _; (split; [reflexivity|exact Hc]). }
    rewrite firstn_word_app, readWord_word by assumption.
    set (k1 := k - (4 + List.length s)).
    destruct (Nat.lt_ge_cases k1 (4 + List.length p)) as [H2|H2].
    { word_cut p ([x00] ++ word rid) acc k1 Hp H2 d e He Hc.
      replace (field_at _ k) with "predicate" by (symmetry; subst k1; field_is).
      eexists _, _; (split; [reflexivity|exact Hc]). }
    rewrite firstn_word_app, readWord_word by assumption.
    set (k2 := k1 - (4 + List.length p)).
    cbn [r triples].
    destruct k2 as [|k3] eqn:E2.
    { cbn [firstn app ReadFull].
      replace (field_at _ k) with "object type" by (symmetry; subst k1; field_is).
      eexists _, _; (split; [reflexivity|cbn; tauto]). }
    cbn [firstn app ReadFull List.length Nat.ltb Nat.leb skipn hd].
    change (Byte.eqb x00 resourceTypeEncoding) with true. cbv iota.
    assert (H3 : k3 < 4 + List.length rid) by (subst k1; lia).
    rewrite <- (app_nil_r (word rid)).
    word_cut rid (@nil byte) acc k3 Hrid H3 d e He Hc.
    replace (field_at _ k) with "resource" by (symmetry; subst k1; field_is).
    eexists _, _; (split; [reflexivity|exact Hc]).
  - (* a literal frame *)
    destruct (Nat.lt_ge_cases k (4 + List.length s)) as [H1|H1].
    { word_cut s (word p ++ [kd] ++ word ty ++ word v) acc k Hs H1 d e He Hc.
      replace (field_at _ k) with "subject" by (symmetry; field_is).
      destruct e; [assert (k = 0) by (now apply He); lia| |]; eexists _, _; (split; [reflexivity|exact Hc]). }
    rewrite firstn_word_app, readWord_word by assumption.
    set (k1 := k - (4 + List.length s)).
    destruct (Nat.lt_ge_cases k1 (4 + List.length p)) as [H2|H2].
    { word_cut p ([kd] ++ word ty ++ word v) acc k1 Hp H2 d e He Hc.
      replace (field_at _ k) with "predicate" by (symmetry; subst k1; field_is).
      eexists _, _; (split; [reflexivity|exact Hc]). }
    rewrite firstn_word_app, readWord_word by assumption.
    set (k2 := k1 - (4 + List.length p)).
    cbn [r triples].
    destruct k2 as [|k3] eqn:E2.
    { cbn [firstn app ReadFull].
      replace (field_at _ k) with "object type" by (symmetry; subst k1; field_is).
      eexists _, _; (split; [reflexivity|cbn; tauto]). }
    cbn [firstn app ReadFull List.length Nat.ltb Nat.leb skipn hd].
    destruct (Byte.eqb kd resourceTypeEncoding) eqn:Ek;
      [apply Byte.byte_dec_bl in Ek; contradiction|].
    destruct (Nat.lt_ge_cases k3 (4 + List.length ty)) as [H3|H3].
    { word_cut ty (word v) acc k3 Hty H3 d e He Hc.
      replace (field_at _ k) with "literate type" by (symmetry; subst k1; field_is).
      eexists _, _; (split; [reflexivity|exact Hc]). }
    rewrite firstn_word_app, readWord_word by assumption.
    set (k4 := k3 - (4 + List.length ty)).
    assert (H4 : k4 < 4 + List.length v) by (subst k4 k1; lia).
    rewrite <- (app_nil_r (word v)).
    word_cut v (@nil byte) acc k4 Hv H4 d e He Hc.
    replace (field_at _ k) with "literate" by (symmetry; subst k4 k1; field_is).
    eexists _, _; (split; [reflexivity|exact Hc]).
Qed.

End Cut.

(* ===================================================================== *)
(** ** The encoder, and the codec round trip                              *)
(* ===================================================================== *)

Section Codec.
Import rdf io binary codec wire.

Lemma length_append s1 s2 :
  String.length (s1 ++ s2)%string = String.length s1 + String.length s2.
Proof. induction s1 as [|a s1 IH]; cbn; [reflexivity|now rewrite IH]. Qed.

Lemma writeWord_word s :
  (N.of_nat (len s) < 2 ^ 32)%N -> writeWord s = word (list_byte_of_string s).
Proof.
  intros Hs. unfold writeWord, word, wordLength.
  rewrite length_list_byte_of_string. fold (len s).
  now rewrite N.mod_small.
Qed.

Lemma fits_string s :
  (N.of_nat (len s) < 2 ^ 32)%N -> fits (list_byte_of_string s).
Proof. unfold fits. now rewrite length_list_byte_of_string. Qed.

(** [encodeTriple] never fails, and it writes one frame. *)
Lemma encodeTriple_frame t :
  encodable t ->
  exists f, encodeTriple t = (f, None) /\ is_frame f (decoded t).
Proof.
  destruct t as [s p [il rid [ty v]]].
  unfold encodable, decoded, encodeTriple, Subject, Predicate, Object, Literal,
    ResourceID, Type_, Value.
  cbn [sub pred obj isLit lit typ val resourceID].
  destruct il.
  - intros (Hs & Hp & Hty & Hv).
    eexists. split; [reflexivity|].
    rewrite !writeWord_word by assumption.
    pose proof (frame_literal _ _ x01 _ _ (fits_string s Hs) (fits_string p Hp)
                  ltac:(discriminate) (fits_string ty Hty) (fits_string v Hv)) as H.
    rewrite !string_of_list_byte_of_string in H.
    rewrite <- !app_assoc. exact H.
  - intros (Hs & Hp & Hrid).
    eexists. split; [reflexivity|].
    rewrite !writeWord_word by assumption.
    pose proof (frame_resource _ _ _ (fits_string s Hs) (fits_string p Hp)
                  (fits_string rid Hrid)) as H.
    rewrite !string_of_list_byte_of_string in H.
    rewrite <- !app_assoc. exact H.
Qed.

Lemma encodeTriple_no_error t : snd (encodeTriple t) = None.
Proof.
  unfold encodeTriple.
  destruct (Literal (Object t)) as [l il].
  destruct il; [reflexivity|].
  destruct (ResourceID (Object t)); reflexivity.
Qed.

(** [Encode] into a [bytes.Buffer]: the frames, one after the other. *)
Lemma Encode_Buffer tris :
  forall buf : list byte,
    Encode buf tris = (buf ++ List.concat (map (fun t => fst (encodeTriple t)) tris), None).
Proof.
  induction tris as [|t tris IH]; intros buf; cbn [Encode map List.concat].
  - now rewrite app_nil_r.
  - pose proof (encodeTriple_no_error t) as E.
    destruct (encodeTriple t) as [b err].
    cbn [fst snd] in *. subst err.
    unfold Write at 1, Buffer_Writer at 1.
    rewrite IH. now rewrite app_assoc.
Qed.

Lemma encoded_stream tris :
  Forall encodable tris ->
  is_stream (List.concat (map (fun t => fst (encodeTriple t)) tris)) (map decoded tris).
Proof.
  induction 1 as [|t tris Ht _ IH]; cbn [map List.concat]; [constructor|].
  destruct (encodeTriple_frame t Ht) as (f & -> & Hf).
  now constructor.
Qed.

Lemma equal_triples_decoded t : equal_triples t (decoded t).
Proof.
  destruct t as [s p [il rid [ty v]]].
  unfold equal_triples, decoded, Equal, object_Equal. cbn.
  destruct il; cbn; now rewrite !String.eqb_refl.
Qed.

Lemma equal_triples_sub a b : equal_triples a b -> sub a = sub b.
Proof.
  unfold equal_triples, Equal, Subject.
  destruct (String.eqb_spec (sub a) (sub b)); [auto|discriminate].
Qed.

Lemma len_doubled n :
  forall s, N.of_nat (len (doubled n s)) = (2 ^ N.of_nat n * N.of_nat (len s))%N.
Proof.
  unfold len.
  induction n as [|n IH]; intros s.
  - cbn [doubled]. change (N.of_nat 0) with 0%N. rewrite N.pow_0_r. lia.
  - cbn [doubled]. rewrite IH, length_append, Nat2N.inj_succ, N.pow_succ_r'. lia.
Qed.

Lemma app_same_length_inv {A} (a b x y : list A) :
  List.length a = List.length b -> a ++ x = b ++ y -> a = b /\ x = y.
Proof.
  revert b. induction a as [|h a IH]; intros [|h' b] Hlen H; try discriminate.
  - now split.
  - injection Hlen as Hlen. injection H as -> H.
    destruct (IH b Hlen H) as [-> ->]. now split.
Qed.

(** A word that starts with the length 0 is empty. *)
Lemma word_zero_prefix w rest rest2 :
  fits w -> word w ++ rest = PutUint32 0 ++ rest2 -> w = [].
Proof.
  intros Hw H. unfold word in H. rewrite <- app_assoc in H.
  apply app_same_length_inv in H; [|reflexivity].
  destruct H as [H _].
  apply (f_equal Uint32) in H.
  rewrite (Uint32_PutUint32 _ Hw), Uint32_PutUint32 in H by reflexivity.
  destruct w as [|x w]; [reflexivity|].
  cbn [List.length] in H. lia.
Qed.

Lemma frame_zero_prefix f t rest rest2 :
  is_frame f t -> f ++ rest = PutUint32 0 ++ rest2 -> sub t = "".
Proof.
  destruct 1 as [s p rid Hs|s p k ty v Hs]; rewrite <- !app_assoc; intros Hz;
    apply word_zero_prefix in Hz; try assumption; subst s; reflexivity.
Qed.

(** A subject whose length is a non-zero multiple of [2 ^ 32] is written
    with the length 0, and a stream that starts so decodes, if at all, to
    a first triple with the empty subject. *)
Lemma wrapped_subject_lost s p o :
  wordLength (len s) = 0%N -> s <> "" ->
  ~ exists bs ts dec',
      Encode (W := list byte) [] [mkTriple s p o] = (bs, None) /\
      Decode (NewBinaryDecoder bs) = Some (dec', (ts, None)) /\
      multiset_Equal [mkTriple s p o] ts.
Proof.
  intros Hwrap Hs (bs & ts & dec' & Henc & Hdec & l2 & Hperm & Heq).
  rewrite Encode_Buffer in Henc.
  apply pair_equal_spec in Henc. destruct Henc as [<- _].
  apply Decode_loop_ok_inv in Hdec. cbn [r triples NewBinaryDecoder app] in Hdec.
  destruct Hdec as (ts' & Hstream & ->).
  inversion Heq as [|a b la lb Hab Hrest]; subst.
  inversion Hrest; subst.
  apply Permutation_sym, Permutation_length_1_inv in Hperm. subst ts'.
  apply equal_triples_sub in Hab. cbn [sub] in Hab.
  assert (Hhead : exists rest2,
    List.concat (map (fun t => fst (encodeTriple t)) [mkTriple s p o]) =
    PutUint32 0 ++ rest2).
  { cbn [map List.concat]. rewrite app_nil_r. unfold encodeTriple.
    destruct (Literal _) as [l il]. destruct (ResourceID _) as [resID ok].
    cbn [Subject sub].
    destruct il; cbn [fst]; unfold writeWord at 1; rewrite Hwrap, <- !app_assoc;
      eexists; reflexivity. }
  destruct Hhead as (rest2 & Hhead). rewrite Hhead in Hstream.
  inversion Hstream as [|f t bs' ts'' Hf Hs' Hbs Hts].
  apply Hs. rewrite Hab.
  exact (frame_zero_prefix f b bs' rest2 Hf Hbs).
Qed.

End Codec.

(* ===================================================================== *)
(** ** The binary codec: the properties                                   *)
(* ===================================================================== *)

Section CodecProperties.
Import rdf io binary codec wire fixtures.

Lemma field_at_decoded t k : field_at (decoded t) k = field_at t k.
Proof. unfold field_at, decoded. destruct (isLit (obj t)) eqn:E; cbn; now rewrite ?E. Qed.

(** The decoder on complete frames followed by the first [k] bytes of one
    more frame. *)
Lemma Decode_cut pre ts f t k :
  is_stream pre ts -> is_frame f t -> 0 < k < List.length f ->
  exists dec' cause,
    Decode (NewBinaryDecoder (pre ++ firstn k f)) =
      Some (dec', ([], Some (errorString (field_at t k ++ ": " ++ cause)%string))) /\
    In cause read_causes /\ triples dec' = ts.
Proof.
  intros Hpre Hf Hk.
  destruct (decodeTriple_cut f t k ([] ++ ts) Hf Hk) as (dec' & cause & Hcut & Hc).
  exists dec', cause. split; [|split; [exact Hc|]].
  - apply (Decode_after_stream pre ts _ [] _ Hpre).
    unfold Decode. cbn [Decode_loop]. now rewrite Hcut.
  - apply decodeTriple_err_inv in Hcut. now destruct Hcut as (_ & -> & _).
Qed.

Lemma sample_encodable : Forall encodable sample.
Proof. repeat constructor. Defined.

(** C1 (amended): for every finite list of triples whose encoded strings
    are each shorter than [2 ^ 32] bytes (resource objects, literals of
    every type tag and empty strings included), encoding the list with the
    binary encoder and decoding the bytes written with the binary decoder
    succeeds and yields the triples in the same order, each [Equal] to the
    original one; so the two lists are equal as multisets under [Equal]. *)
Theorem binary_roundtrip tris :
  Forall encodable tris ->
  exists bs ts dec',
    Encode (W := list byte) [] tris = (bs, None) /\
    Decode (NewBinaryDecoder bs) = Some (dec', (ts, None)) /\
    Forall2 equal_triples tris ts /\
    multiset_Equal tris ts.
Proof.
  intros Henc.
  exists (List.concat (map (fun t => fst (encodeTriple t)) tris)),
    (map decoded tris), (mkDecoder [] (map decoded tris)).
  assert (Heq : Forall2 equal_triples tris (map decoded tris)).
  { clear Henc. induction tris; cbn [map]; constructor; auto using equal_triples_decoded. }
  repeat split.
  - now rewrite Encode_Buffer.
  - exact (Decode_stream _ _ [] (encoded_stream tris Henc)).
  - exact Heq.
  - exists (map decoded tris). split; [apply Permutation_refl|exact Heq].
Qed.

Lemma binary_roundtrip_witness :
  Forall encodable sample /\
  exists bs ts dec',
    Encode (W := list byte) [] sample = (bs, None) /\
    Decode (NewBinaryDecoder bs) = Some (dec', (ts, None)) /\
    Forall2 equal_triples sample ts /\
    multiset_Equal sample ts.
Proof.
  split; [exact sample_encodable|exact (binary_roundtrip sample sample_encodable)].
Defined.

(** C1, as stated, fails: a triple whose subject is [2 ^ 32] bytes long
    is written with the subject length 0, and what the decoder reads back,
    if anything, is not the triple. *)
Lemma binary_roundtrip_wraps :
  ~ exists bs ts dec',
      Encode (W := list byte) [] [overlong] = (bs, None) /\
      Decode (NewBinaryDecoder bs) = Some (dec', (ts, None)) /\
      multiset_Equal [overlong] ts.
Proof.
  apply wrapped_subject_lost.
  - unfold wordLength. rewrite len_doubled. reflexivity.
  - intros H.
    assert (H0 : N.of_nat (len (doubled 32 "a")) = N.of_nat (len "")).
    { rewrite H. reflexivity. }
    rewrite len_doubled in H0. discriminate H0.
Qed.

(** C2: [Decode] returns triples and no error exactly when the stream
    ends at a triple boundary: the loop is left with [done] only when
    not one byte is there for a subject length, a stream decodes without
    error if and only if it is made of complete frames, the empty stream
    gives the empty list and no error, and a stream that stops anywhere
    else gives an error. *)
Theorem Decode_clean_at_boundary :
  Decode (NewBinaryDecoder []) = Some (NewBinaryDecoder [], ([], None)) /\
  (forall dec, fst (snd (decodeTriple dec)) = true <-> r dec = []) /\
  (forall bs ts,
     (exists dec', Decode (NewBinaryDecoder bs) = Some (dec', (ts, None))) <->
     is_stream bs ts) /\
  (forall bs, (forall ts, ~ is_stream bs ts) ->
     exists dec' e, Decode (NewBinaryDecoder bs) = Some (dec', ([], Some e))) /\
  (forall pre ts f t k,
     is_stream pre ts -> is_frame f t -> 0 < k < List.length f ->
     exists dec' e,
       Decode (NewBinaryDecoder (pre ++ firstn k f)) = Some (dec', ([], Some e))).
Proof.
  split; [reflexivity|].
  split.
  { intros dec. split.
    - destruct (decodeTriple dec) as [d [done err]] eqn:E. cbn [fst snd].
      intros ->. now apply decodeTriple_done_inv in E.
    - destruct dec as [bs acc]. cbn [r]. intros ->. reflexivity. }
  split.
  { intros bs ts. split.
    - intros (dec' & H). apply Decode_loop_ok_inv in H.
      destruct H as (ts' & Hs & ->). exact Hs.
    - intros Hs. eexists. exact (Decode_stream bs ts [] Hs). }
  split.
  { intros bs Hno.
    destruct (Decode_total (NewBinaryDecoder bs)) as ([dec' [ts [e|]]] & H).
    - pose proof (Decode_loop_err_inv _ _ _ _ _ H) as [-> _]. eauto.
    - apply Decode_loop_ok_inv in H. destruct H as (ts' & Hs & _).
      now apply Hno in Hs. }
  intros pre ts f t k Hpre Hf Hk.
  destruct (Decode_cut pre ts f t k Hpre Hf Hk) as (dec' & cause & H & _).
  eauto.
Qed.


Lemma is_frame_encodeTriple t :
  encodable t -> is_frame (fst (encodeTriple t)) (decoded t).
Proof. intros Ht. now destruct (encodeTriple_frame t Ht) as (f & -> & Hf). Qed.

Lemma is_stream_encodeTriple t :
  encodable t -> is_stream (fst (encodeTriple t)) [decoded t].
Proof.
  intros Ht. rewrite <- (app_nil_r (fst _)).
  constructor; [now apply is_frame_encodeTriple|constructor].
Qed.

Lemma t_res_encodable : encodable t_res.
Proof. repeat constructor. Defined.

Lemma t_lit_encodable : encodable t_lit.
Proof. repeat constructor. Defined.

Lemma Decode_clean_at_boundary_witness :
  is_stream (fst (encodeTriple t_res)) [decoded t_res] /\
  is_frame (fst (encodeTriple t_lit)) (decoded t_lit) /\
  0 < 6 < List.length (fst (encodeTriple t_lit)) /\
  exists dec' e,
    Decode (NewBinaryDecoder (fst (encodeTriple t_res) ++ firstn 6 (fst (encodeTriple t_lit))))
    = Some (dec', ([], Some e)).
Proof.
  pose proof (is_stream_encodeTriple t_res t_res_encodable) as H1.
  pose proof (is_frame_encodeTriple t_lit t_lit_encodable) as H2.
  assert (H3 : 0 < 6 < List.length (fst (encodeTriple t_lit))) by (cbn; lia).
  split; [assumption|]. split; [assumption|]. split; [exact H3|].
  exact (proj2 (proj2 (proj2 (proj2 Decode_clean_at_boundary))) _ _ _ _ _ H1 H2 H3).
Defined.

(** C3: every error of [Decode] is the label of one of the six fields
    (subject, predicate, object type, resource, literate type, literate)
    followed by the cause of the failed read; the six labels differ; and
    on a stream of complete frames followed by the first [k] bytes of one
    more frame, the label is that of the field the cut falls in, also
    when the frame is the one [encodeTriple] writes for a triple. *)
Theorem Decode_error_names_field :
  NoDup field_labels /\
  (forall dec dec' ts e,
     Decode dec = Some (dec', (ts, Some e)) ->
     exists field cause,
       In field field_labels /\ In cause read_causes /\
       e = errorString (field ++ ": " ++ cause)%string) /\
  (forall pre ts f t k,
     is_stream pre ts -> is_frame f t -> 0 < k < List.length f ->
     In (field_at t k) field_labels /\
     exists dec' cause,
       Decode (NewBinaryDecoder (pre ++ firstn k f)) =
         Some (dec', ([], Some (errorString (field_at t k ++ ": " ++ cause)%string))) /\
       In cause read_causes) /\
  (forall pre ts t k,
     is_stream pre ts -> encodable t ->
     0 < k < List.length (fst (encodeTriple t)) ->
     exists dec' cause,
       Decode (NewBinaryDecoder (pre ++ firstn k (fst (encodeTriple t)))) =
         Some (dec', ([], Some (errorString (field_at t k ++ ": " ++ cause)%string))) /\
       In cause read_causes).
Proof.
  split.
  { unfold field_labels.
    repeat (constructor; [cbn; intuition discriminate|]). constructor. }
  split.
  { intros dec dec' ts e H. now apply Decode_loop_err_inv in H. }
  split.
  { intros pre ts f t k Hpre Hf Hk. split.
    - unfold field_at, field_labels.
      repeat match goal with
             | |- context [if ?c then _ else _] => destruct c
             end; cbn; tauto.
    - destruct (Decode_cut pre ts f t k Hpre Hf Hk) as (dec' & cause & H & Hc & _).
      eauto. }
  intros pre ts t k Hpre Ht Hk.
  destruct (Decode_cut pre ts _ _ k Hpre (is_frame_encodeTriple t Ht) Hk)
    as (dec' & cause & H & Hc & _).
  rewrite field_at_decoded in H. eauto.
Qed.

Lemma Decode_error_names_field_witness :
  is_stream (fst (encodeTriple t_res)) [decoded t_res] /\
  encodable t_lit /\
  0 < 19 < List.length (fst (encodeTriple t_lit)) /\
  exists dec' cause,
    Decode (NewBinaryDecoder
              (fst (encodeTriple t_res) ++ firstn 19 (fst (encodeTriple t_lit)))) =
      Some (dec', ([], Some (errorString ("literate type" ++ ": " ++ cause)%string))) /\
    In cause read_causes.
Proof.
  pose proof (is_stream_encodeTriple t_res t_res_encodable) as H1.
  assert (H3 : 0 < 19 < List.length (fst (encodeTriple t_lit))) by (cbn; lia).
  split; [assumption|]. split; [exact t_lit_encodable|]. split; [exact H3|].
  exact (proj2 (proj2 (proj2 Decode_error_names_field)) _ _ t_lit 19 H1 t_lit_encodable H3).
Defined.

(** C9: when [Decode] returns an error it returns no triple with it: the
    triples decoded earlier in the call stay in the decoder and are not
    returned. *)
Theorem Decode_error_returns_nil :
  (forall dec dec' ts e, Decode dec = Some (dec', (ts, Some e)) -> ts = []) /\
  (forall pre ts f t k,
     is_stream pre ts -> is_frame f t -> 0 < k < List.length f ->
     exists dec' e,
       Decode (NewBinaryDecoder (pre ++ firstn k f)) = Some (dec', ([], Some e)) /\
       triples dec' = ts).
Proof.
  split.
  - intros dec dec' ts e H. now apply Decode_loop_err_inv in H.
  - intros pre ts f t k Hpre Hf Hk.
    destruct (Decode_cut pre ts f t k Hpre Hf Hk) as (dec' & cause & H & _ & Ht).
    eauto.
Qed.

Lemma Decode_error_returns_nil_witness :
  is_stream (fst (encodeTriple t_res)) [decoded t_res] /\
  is_frame (fst (encodeTriple t_lit)) (decoded t_lit) /\
  0 < 6 < List.length (fst (encodeTriple t_lit)) /\
  exists dec' e,
    Decode (NewBinaryDecoder (fst (encodeTriple t_res) ++ firstn 6 (fst (encodeTriple t_lit))))
    = Some (dec', ([], Some e)) /\
    triples dec' = [decoded t_res].
Proof.
  pose proof (is_stream_encodeTriple t_res t_res_encodable) as H1.
  pose proof (is_frame_encodeTriple t_lit t_lit_encodable) as H2.
  assert (H3 : 0 < 6 < List.length (fst (encodeTriple t_lit))) by (cbn; lia).
  split; [assumption|]. split; [assumption|]. split; [exact H3|].
  exact (proj2 Decode_error_returns_nil _ _ _ _ _ H1 H2 H3).
Defined.

(** C10: a frame whose kind byte is not 0 decodes as a literal, whatever
    the byte is (2, say); and an error of [Decode] is always a failed
    read, never a complaint about the kind. *)
Theorem Decode_nonzero_kind_is_literal :
  (forall s p k ty v,
     fits s -> fits p -> fits ty -> fits v -> k <> x00 ->
     Decode (NewBinaryDecoder (word s ++ word p ++ [k] ++ word ty ++ word v)) =
     let t := mkTriple (string_of_list_byte s) (string_of_list_byte p)
                (mkObject true ""
                   (mkLiteral (string_of_list_byte ty) (string_of_list_byte v))) in
     Some (mkDecoder [] [t], ([t], None))) /\
  Decode (NewBinaryDecoder kind2_stream) =
    Some (mkDecoder [] [mkTriple "s" "p" (mkObject true "" (mkLiteral "t" "v"))],
          ([mkTriple "s" "p" (mkObject true "" (mkLiteral "t" "v"))], None)) /\
  (forall dec dec' ts e,
     Decode dec = Some (dec', (ts, Some e)) ->
     exists field cause,
       In cause read_causes /\ e = errorString (field ++ ": " ++ cause)%string).
Proof.
  split.
  { intros s p k ty v Hs Hp Hty Hv Hk. cbv zeta.
    pose proof (stream_cons _ _ _ _ (frame_literal s p k ty v Hs Hp Hk Hty Hv) stream_nil)
      as Hst.
    rewrite app_nil_r in Hst.
    exact (Decode_stream _ _ [] Hst). }
  split; [reflexivity|].
  intros dec dec' ts e H. apply Decode_loop_err_inv in H.
  destruct H as (_ & field & cause & _ & Hc & ->). eauto.
Qed.

Lemma Decode_nonzero_kind_is_literal_witness :
  fits [x73] /\ fits [x70] /\ fits [x74] /\ fits [x76] /\ x02 <> x00 /\
  Decode (NewBinaryDecoder (word [x73] ++ word [x70] ++ [x02] ++ word [x74] ++ word [x76])) =
    Some (mkDecoder [] [mkTriple "s" "p" (mkObject true "" (mkLiteral "t" "v"))],
          ([mkTriple "s" "p" (mkObject true "" (mkLiteral "t" "v"))], None)).
Proof.
  assert (F : forall b : byte, fits [b]) by (intros b; reflexivity).
  assert (K : x02 <> x00) by discriminate.
  split; [apply F|]. split; [apply F|]. split; [apply F|]. split; [apply F|].
  split; [exact K|].
  exact (proj1 Decode_nonzero_kind_is_literal [x73] [x70] x02 [x74] [x76]
           (F _) (F _) (F _) (F _) K).
Defined.

End CodecProperties.

(* ===================================================================== *)
(** ** Triple equality                                                    *)
(* ===================================================================== *)

Section Equality.
Import rdf model.

Lemma object_Equal_spec o1 o2 : object_Equal o1 o2 = true <-> same_object o1 o2.
Proof.
  destruct o1 as [il1 rid1 [ty1 v1]], o2 as [il2 rid2 [ty2 v2]].
  unfold object_Equal, same_object, Literal, ResourceID, Type_, Value.
  cbn [isLit resourceID lit typ val].
  destruct il1, il2; cbn [Bool.eqb negb]; try (split; [discriminate|intros [H _]; discriminate H]).
  - rewrite andb_true_iff, !String.eqb_eq. tauto.
  - rewrite String.eqb_eq. tauto.
Qed.

Lemma Equal_spec t1 t2 :
  Equal (Some t1) (PtrTriple (Some t2)) = Some true <->
  sub t1 = sub t2 /\ pred t1 = pred t2 /\ same_object (obj t1) (obj t2).
Proof.
  unfold Equal, Subject, Predicate, Object.
  rewrite <- object_Equal_spec.
  destruct (String.eqb_spec (sub t1) (sub t2)) as [Hs|Hs]; cbn [negb].
  - destruct (String.eqb_spec (pred t1) (pred t2)) as [Hp|Hp]; cbn [negb].
    + split; [intros [= ->]; auto|intros (_ & _ & ->); reflexivity].
    + split; [discriminate|tauto].
  - split; [discriminate|tauto].
Qed.

Lemma Equal_total t1 t2 :
  exists b, Equal (Some t1) (PtrTriple (Some t2)) = Some b.
Proof.
  unfold Equal.
  destruct (negb _); [eauto|]. destruct (negb _); eauto.
Qed.

Lemma same_object_refl o : same_object o o.
Proof. unfold same_object. destruct (isLit o); auto. Qed.

(** C8: [Equal] is reflexive on every triple; it holds exactly of triples
    with the same subject, the same predicate and objects of the same
    variant that agree on the (type, value) pair for literals and on the
    identifier for resources, and is false as soon as one of them
    differs; a nil triple equals the nil [Triple] and nothing else, and a
    triple that is there never equals a nil one. *)
Theorem Equal_reflexive_structural :
  (forall t, Equal (Some t) (PtrTriple (Some t)) = Some true) /\
  (forall t1 t2,
     Equal (Some t1) (PtrTriple (Some t2)) = Some true <->
     sub t1 = sub t2 /\ pred t1 = pred t2 /\ same_object (obj t1) (obj t2)) /\
  (forall t1 t2,
     sub t1 <> sub t2 \/ pred t1 <> pred t2 \/ ~ same_object (obj t1) (obj t2) ->
     Equal (Some t1) (PtrTriple (Some t2)) = Some false) /\
  Equal None NilTriple = Some true /\
  (forall other, Equal None other = Some true -> other = NilTriple) /\
  (forall t other,
     Equal (Some t) other = Some true -> exists t', other = PtrTriple (Some t')).
Proof.
  split.
  { intros t. apply Equal_spec. auto using same_object_refl. }
  split; [exact Equal_spec|].
  split.
  { intros t1 t2 Hdiff.
    destruct (Equal_total t1 t2) as ([|] & H); [|exact H].
    apply Equal_spec in H. tauto. }
  split; [reflexivity|].
  split.
  { intros [|p]; [reflexivity|discriminate]. }
  intros t [|[t'|]]; try discriminate. eauto.
Qed.

Lemma Equal_reflexive_structural_witness :
  pred fixtures.t_res <> pred fixtures.t_lit /\
  Equal (Some fixtures.t_res) (PtrTriple (Some fixtures.t_lit)) = Some false.
Proof.
  assert (H : pred fixtures.t_res <> pred fixtures.t_lit) by discriminate.
  split; [exact H|].
  exact (proj1 (proj2 (proj2 Equal_reflexive_structural))
           fixtures.t_res fixtures.t_lit (or_intror (or_introl H))).
Defined.

(** The two nil values: a nil [*triple] and a [Triple] that holds a nil
    [*triple] are not [Equal], and [Equal] from a triple that is there
    to a [Triple] that holds a nil [*triple] panics. *)
Lemma Equal_typed_nil t :
  Equal None (PtrTriple None) = Some false /\
  Equal (Some t) (PtrTriple None) = None.
Proof. split; reflexivity. Qed.

End Equality.

(* ===================================================================== *)
(** ** The N-Triples encoder                                              *)
(* ===================================================================== *)

Section NTriplesEncoder.
Import rdf io ntriples.

Variable XsdDateTime : string.

Lemma append_assoc (a b c : string) : ((a ++ b) ++ c = a ++ (b ++ c))%string.
Proof. induction a as [|x a IH]; cbn; [reflexivity|now rewrite IH]. Qed.

Lemma list_byte_of_string_append (a b : string) :
  list_byte_of_string (a ++ b) = list_byte_of_string a ++ list_byte_of_string b.
Proof.
  induction a as [|x a IH]; [reflexivity|].
  change (list_byte_of_string (String x a ++ b))
    with (byte_of_ascii x :: list_byte_of_string (a ++ b)).
  now rewrite IH.
Qed.

(** The text written for a triple: subject, predicate, object text,
    full stop, end of line. *)
Lemma line_form t :
  line XsdDateTime t =
  ("<" ++ sub t ++ "> <" ++ pred t ++ "> " ++ object_text XsdDateTime (obj t)
   ++ " ." ++ newline)%string.
Proof.
  destruct t as [s p [il rid [ty v]]].
  unfold line, object_text, litType, Subject, Predicate, Object, Literal,
    ResourceID, Type_, Value.
  cbn [sub pred obj isLit resourceID lit typ val negb].
  destruct il; cbn [negb]; now rewrite !append_assoc.
Qed.

(** [Encode] into a [bytes.Buffer]: one write for every triple, in order,
    and no error. *)
Lemma ntriples_Encode_Buffer tris :
  forall buf : list byte,
    Encode XsdDateTime buf tris =
    (buf ++ List.concat (map (fun t => list_byte_of_string (line XsdDateTime t)) tris), None).
Proof.
  induction tris as [|t tris IH]; intros buf; cbn [Encode map List.concat].
  - now rewrite app_nil_r.
  - unfold Write at 1, Buffer_Writer at 1. rewrite IH. now rewrite app_assoc.
Qed.

Lemma occurrences_append c (a b : string) :
  occurrences c (a ++ b) = occurrences c a + occurrences c b.
Proof.
  induction a as [|d a IH]; cbn [append occurrences]; [reflexivity|].
  rewrite IH. lia.
Qed.

Lemma occurrences_litType ty : occurrences nl (litType XsdDateTime ty) = 0.
Proof.
  unfold litType.
  repeat match goal with
         | |- context [if ?c then _ else _] => destruct c
         end; reflexivity.
Qed.

(** When no string of the triple holds an end of line, the text written
    for it is one line. *)
Lemma line_one_line t :
  (forall s, In s (written t) -> occurrences nl s = 0) -> one_line (line XsdDateTime t).
Proof.
  intros Hno.
  exists ("<" ++ sub t ++ "> <" ++ pred t ++ "> " ++ object_text XsdDateTime (obj t) ++ " .")%string.
  split.
  - rewrite line_form. now rewrite !append_assoc.
  - assert (Hs : occurrences nl (sub t) = 0) by (apply Hno; cbn; tauto).
    assert (Hp : occurrences nl (pred t) = 0) by (apply Hno; cbn; tauto).
    assert (Ho : occurrences nl (object_text XsdDateTime (obj t)) = 0).
    { assert (H : occurrences nl (if isLit (obj t) then val (lit (obj t))
                                  else resourceID (obj t)) = 0)
        by (apply Hno; cbn; tauto).
      unfold object_text. fold (litType XsdDateTime (typ (lit (obj t)))).
      destruct (isLit (obj t)); rewrite !occurrences_append, ?occurrences_litType, H;
        reflexivity. }
    rewrite !occurrences_append, Hs, Hp, Ho. reflexivity.
Qed.

(** The ends of line in the text written for a triple: the one that
    ends it and those of the strings of the triple. *)
Lemma line_occurrences t :
  occurrences nl (line XsdDateTime t) =
  1 + occurrences nl (sub t) + occurrences nl (pred t) +
  occurrences nl (if isLit (obj t) then val (lit (obj t)) else resourceID (obj t)).
Proof.
  rewrite line_form. unfold object_text.
  fold (litType XsdDateTime (typ (lit (obj t)))).
  destruct (isLit (obj t));
    rewrite !occurrences_append, ?occurrences_litType; cbn; lia.
Qed.

Lemma one_line_strings t :
  one_line (line XsdDateTime t) ->
  forall s, In s (written t) -> occurrences nl s = 0.
Proof.
  intros (body & Hb & H0).
  pose proof (line_occurrences t) as Hocc.
  rewrite Hb, occurrences_append, H0 in Hocc. cbn in Hocc.
  intros s [<-|[<-|[<-|[]]]]; lia.
Qed.

End NTriplesEncoder.

Section NTriplesEncoderSuffix.
Import rdf io ntriples.

(** C7 (amended): for every triple the N-Triples encoder writes
    [<subject> <predicate> ], then [<resource>] for a resource object or
    the value between two double quotes for a literal object, then [ .]
    and a line feed, every string as it is; a literal gets the canonical
    [^^<http://www.w3.org/2001/XMLSchema#...>] suffix when its type is
    the boolean, the dateTime or the integer tag and no suffix for any
    other type, the string tag and custom tags included; the text is
    exactly one line if and only if no string written for the triple
    holds a line feed; the texts of a list of triples are written one
    after the other. *)
Theorem ntriples_Encode_line (XsdDateTime : string) :
  XsdDateTime <> XsdBoolean -> XsdDateTime <> XsdInteger -> XsdDateTime <> XsdString ->
  (forall s p rid l,
     line XsdDateTime (mkTriple s p (mkObject false rid l)) =
     ("<" ++ s ++ "> <" ++ p ++ "> " ++ "<" ++ rid ++ ">" ++ " ."
      ++ String "010"%char "")%string) /\
  (forall s p rid ty v,
     line XsdDateTime (mkTriple s p (mkObject true rid (mkLiteral ty v))) =
     ("<" ++ s ++ "> <" ++ p ++ "> " ++ String "034"%char "" ++ v
      ++ String "034"%char "" ++ litType XsdDateTime ty
      ++ " ." ++ String "010"%char "")%string) /\
  litType XsdDateTime XsdBoolean = "^^<http://www.w3.org/2001/XMLSchema#boolean>" /\
  litType XsdDateTime XsdDateTime = "^^<http://www.w3.org/2001/XMLSchema#dateTime>" /\
  litType XsdDateTime XsdInteger = "^^<http://www.w3.org/2001/XMLSchema#integer>" /\
  litType XsdDateTime XsdString = "" /\
  (forall ty, ty <> XsdBoolean -> ty <> XsdDateTime -> ty <> XsdInteger ->
              litType XsdDateTime ty = "") /\
  (forall t,
     (exists body,
        line XsdDateTime t = (body ++ String "010"%char "")%string /\
        occurrences "010"%char body = 0) <->
     (forall s,
        In s [sub t; pred t;
              if isLit (obj t) then val (lit (obj t)) else resourceID (obj t)] ->
        occurrences "010"%char s = 0)) /\
  (forall (tris : list triple) (buf : list byte),
     Encode XsdDateTime buf tris =
     (buf ++ List.concat (map (fun t => list_byte_of_string (line XsdDateTime t)) tris),
      None)).
Proof.
  intros Hb Hi Hs.
  split.
  { intros s p rid l. rewrite line_form. unfold object_text. cbn [obj isLit resourceID sub pred].
    now rewrite !append_assoc. }
  split.
  { intros s p rid ty v. rewrite line_form. unfold object_text, litType.
    cbn [obj isLit lit typ val sub pred]. now rewrite !append_assoc. }
  split; [reflexivity|].
  split.
  { unfold litType.
    destruct (String.eqb_spec XsdDateTime XsdBoolean); [contradiction|].
    now rewrite String.eqb_refl. }
  split.
  { unfold litType. change (String.eqb XsdInteger XsdBoolean) with false. cbv iota.
    destruct (String.eqb_spec XsdInteger XsdDateTime); [congruence|reflexivity]. }
  split.
  { unfold litType. change (String.eqb XsdString XsdBoolean) with false.
    change (String.eqb XsdString XsdInteger) with false. cbv iota.
    destruct (String.eqb_spec XsdString XsdDateTime); [congruence|reflexivity]. }
  split.
  { intros ty H1 H2 H3. unfold litType.
    destruct (String.eqb_spec ty XsdBoolean); [contradiction|].
    destruct (String.eqb_spec ty XsdDateTime); [contradiction|].
    destruct (String.eqb_spec ty XsdInteger); [contradiction|reflexivity]. }
  split.
  { intros t. split.
    - exact (one_line_strings XsdDateTime t).
    - exact (line_one_line XsdDateTime t). }
  intros tris buf. apply ntriples_Encode_Buffer.
Qed.

Lemma ntriples_Encode_line_witness :
  "xsd:dateTime" <> XsdBoolean /\ "xsd:dateTime" <> XsdInteger /\
  "xsd:dateTime" <> XsdString /\
  line "xsd:dateTime" fixtures.t_lit =
  ("<" ++ "me" ++ "> <" ++ "name" ++ "> " ++ String "034"%char "" ++ "donald"
   ++ String "034"%char "" ++ litType "xsd:dateTime" XsdString
   ++ " ." ++ String "010"%char "")%string.
Proof.
  assert (H1 : "xsd:dateTime" <> XsdBoolean) by discriminate.
  assert (H2 : "xsd:dateTime" <> XsdInteger) by discriminate.
  assert (H3 : "xsd:dateTime" <> XsdString) by discriminate.
  split; [exact H1|]. split; [exact H2|]. split; [exact H3|].
  exact (proj1 (proj2 (ntriples_Encode_line "xsd:dateTime" H1 H2 H3))
           "me"%string "name"%string ""%string XsdString "donald"%string).
Defined.

(** C7, as stated, fails: the strings are written as they are, and the
    text written for a literal whose value holds a line feed is two
    lines, not one. *)
Lemma ntriples_line_two_lines :
  ~ exists body,
      line "xsd:dateTime"
        (mkTriple "s" "p"
           (mkObject true "" (mkLiteral XsdString ("a" ++ String "010"%char "b")))) =
      (body ++ String "010"%char "")%string /\
      occurrences "010"%char body = 0.
Proof.
  intros (body & Hb & H0).
  apply (f_equal (occurrences "010"%char)) in Hb.
  rewrite occurrences_append, H0 in Hb.
  discriminate Hb.
Qed.

End NTriplesEncoderSuffix.

(* ===================================================================== *)
(** ** The dataset decoder                                                *)
(* ===================================================================== *)

Section Dataset.
Import rdf io codec wire dataset.

Context {R : Type} (run : R -> list triple * option error).

Lemma tris_worker rd : tris (worker run rd) = fst (run rd).
Proof. unfold worker. now destruct (run rd). Qed.

Lemma err_worker rd : err (worker run rd) = snd (run rd).
Proof. unfold worker. now destruct (run rd). Qed.

Lemma receive_spec results :
  forall all errs,
    receive results all errs =
    (all ++ List.concat (map tris results), errs ++ failures results).
Proof.
  induction results as [|res results IH]; intros all errs; cbn [receive].
  - cbn. now rewrite !app_nil_r.
  - rewrite IH. unfold failures. cbn [map List.concat flat_map].
    destruct (err res); now rewrite <- !app_assoc.
Qed.

Lemma Decode_received_spec results :
  Decode_received results =
  (List.concat (map tris results), hd_error (failures results)).
Proof.
  unfold Decode_received. rewrite receive_spec. cbn [app].
  now destruct (failures results).
Qed.

Lemma failures_nil results :
  failures results = [] <-> forall res, In res results -> err res = None.
Proof.
  unfold failures. induction results as [|res results IH]; cbn [flat_map].
  - split; [intros _ ? []|reflexivity].
  - split.
    + intros H. apply app_eq_nil in H. destruct H as [H1 H2].
      intros res' [<-|Hin]; [now destruct (err res)|now apply IH].
    + intros H. rewrite (H res (or_introl eq_refl)). apply IH.
      intros res' Hin. apply H. now right.
Qed.

Lemma failures_In results e :
  In e (failures results) <-> exists res, In res results /\ err res = Some e.
Proof.
  unfold failures. rewrite in_flat_map. split.
  - intros (res & Hin & He). exists res. split; [assumption|].
    destruct (err res) as [e'|]; [destruct He as [->|[]]; reflexivity|destruct He].
  - intros (res & Hin & He). exists res. split; [assumption|].
    rewrite He. now left.
Qed.

Lemma In_arrival arrival rs res :
  Permutation arrival (map (worker run) rs) ->
  In res arrival <-> exists rd, In rd rs /\ res = worker run rd.
Proof.
  intros Hp. split.
  - intros Hin. apply (Permutation_in _ Hp) in Hin. apply in_map_iff in Hin.
    destruct Hin as (rd & <- & Hrd). eauto.
  - intros (rd & Hrd & ->). apply (Permutation_in _ (Permutation_sym Hp)).
    now apply in_map.
Qed.

(** What every possible return of the dataset decoder is made of. *)
Lemma dataset_Decode_spec rs out :
  Decode run rs out ->
  Permutation (fst out) (List.concat (map (fun rd => fst (run rd)) rs)) /\
  (snd out = None <-> forall rd, In rd rs -> snd (run rd) = None) /\
  (forall e, snd out = Some e -> exists rd, In rd rs /\ snd (run rd) = Some e).
Proof.
  intros (arrival & Hp & ->). rewrite Decode_received_spec. cbn [fst snd].
  split; [|split].
  - pose proof (Permutation_flat_map tris Hp) as H.
    rewrite !flat_map_concat_map, map_map in H.
    replace (map (fun rd => tris (worker run rd)) rs)
      with (map (fun rd => fst (run rd)) rs) in H; [exact H|].
    apply map_ext. intros rd. symmetry. apply tris_worker.
  - split.
    + intros Hnone rd Hrd. rewrite <- err_worker.
      assert (Hnil : failures arrival = []) by (destruct (failures arrival); [reflexivity|discriminate]).
      apply (proj1 (failures_nil arrival) Hnil).
      apply (In_arrival arrival rs _ Hp). eauto.
    + intros Hall.
      assert (Hnil : failures arrival = []).
      { apply failures_nil. intros res Hin.
        apply (In_arrival arrival rs _ Hp) in Hin. destruct Hin as (rd & Hrd & ->).
        rewrite err_worker. now apply Hall. }
      now rewrite Hnil.
  - intros e He.
    assert (Hin : In e (failures arrival)).
    { destruct (failures arrival); [discriminate|]. injection He as ->. now left. }
    apply failures_In in Hin. destruct Hin as (res & Hres & Herr).
    apply (In_arrival arrival rs _ Hp) in Hres. destruct Hres as (rd & Hrd & ->).
    exists rd. split; [assumption|]. now rewrite <- err_worker.
Qed.

(** The dataset decoder returns, whatever the order of arrival. *)
Lemma dataset_Decode_returns rs : exists out, Decode run rs out.
Proof. eexists. exists (map (worker run) rs). split; [apply Permutation_refl|reflexivity]. Qed.

End Dataset.

Section DatasetBinary.
Import rdf io codec wire dataset.

Lemma binary_run_stream bs ts : is_stream bs ts -> binary_run bs = (ts, None).
Proof.
  intros Hs. unfold binary_run, NewBinaryDecoder. now rewrite (Decode_stream bs ts [] Hs).
Qed.

Lemma binary_run_error bs e ts : binary_run bs = (ts, Some e) -> ts = [].
Proof.
  unfold binary_run.
  destruct (codec.Decode (NewBinaryDecoder bs)) as [[dec' res]|] eqn:E; [|discriminate].
  intros ->. now apply Decode_loop_err_inv in E.
Qed.

Lemma binary_run_not_stream bs :
  (forall ts, ~ is_stream bs ts) -> exists e, binary_run bs = ([], Some e).
Proof.
  intros Hno. unfold binary_run.
  destruct (Decode_total (NewBinaryDecoder bs)) as ([dec' [ts [e|]]] & H); rewrite H.
  - apply Decode_loop_err_inv in H. destruct H as [-> _]. eauto.
  - apply Decode_loop_ok_inv in H. destruct H as (ts' & Hs & _).
    now apply Hno in Hs.
Qed.

End DatasetBinary.

Section DatasetProperties.
Import rdf io codec wire dataset fixtures.

Lemma Decode_two_streams valid broken ts e out :
  binary_run valid = (ts, None) -> binary_run broken = ([], Some e) ->
  Decode binary_run [valid; broken] out \/ Decode binary_run [broken; valid] out ->
  out = (ts, Some e).
Proof.
  intros Hv Hb H.
  assert (Hperm : exists arrival,
            Permutation [worker binary_run valid; worker binary_run broken] arrival /\
            out = Decode_received arrival).
  { destruct H as [(arrival & Hp & ->)|(arrival & Hp & ->)]; exists arrival;
      (split; [|reflexivity]); cbn [map] in Hp.
    - now apply Permutation_sym.
    - apply Permutation_sym in Hp. eapply Permutation_trans; [apply perm_swap|exact Hp]. }
  destruct Hperm as (arrival & Hp & ->).
  unfold worker in Hp. rewrite Hv, Hb in Hp.
  apply Permutation_length_2_inv in Hp.
  destruct Hp as [->| ->]; cbn; now rewrite ?app_nil_r.
Qed.

(** C4: every possible return of the dataset decoder holds the triples
    that the decoders of all the streams returned, those of a stream
    after those of another in the order of arrival, whether or not other
    streams failed; it holds no error exactly when no stream failed, and
    otherwise the error of one of the streams that failed, and only that
    one; the decoder always returns.  With the binary decoder a stream
    that fails contributes no triple, so that over a valid and a
    truncated stream the return is the triples of the valid stream with
    the error of the truncated one. *)
Theorem dataset_Decode_partial_success :
  (forall (R : Type) (run : R -> list triple * option error) (rs : list R),
     (exists out, Decode run rs out) /\
     forall out, Decode run rs out ->
       Permutation (fst out) (List.concat (map (fun rd => fst (run rd)) rs)) /\
       (snd out = None <-> forall rd, In rd rs -> snd (run rd) = None) /\
       (forall e, snd out = Some e -> exists rd, In rd rs /\ snd (run rd) = Some e)) /\
  (forall rd ts e, binary_run rd = (ts, Some e) -> ts = []) /\
  (forall valid broken ts out,
     is_stream valid ts -> (forall ts', ~ is_stream broken ts') ->
     Decode binary_run [valid; broken] out \/ Decode binary_run [broken; valid] out ->
     fst out = ts /\ List.length (fst out) = List.length ts /\
     exists e, snd out = Some e /\ binary_run broken = ([], Some e)).
Proof.
  split.
  { intros R run rs. split.
    - apply dataset_Decode_returns.
    - apply dataset_Decode_spec. }
  split.
  { intros rd ts e. apply binary_run_error. }
  intros valid broken ts out Hv Hb H.
  destruct (binary_run_not_stream broken Hb) as (e & He).
  rewrite (Decode_two_streams valid broken ts e out (binary_run_stream valid ts Hv) He H).
  cbn [fst snd]. eauto.
Qed.

Lemma cut_not_stream : forall ts, ~ is_stream (firstn 6 (fst (encodeTriple t_lit))) ts.
Proof.
  intros ts Hs. apply (Decode_stream _ _ []) in Hs. discriminate Hs.
Defined.

Lemma dataset_Decode_partial_success_witness :
  is_stream (fst (encodeTriple t_res)) [wire.decoded t_res] /\
  (forall ts, ~ is_stream (firstn 6 (fst (encodeTriple t_lit))) ts) /\
  Decode binary_run [fst (encodeTriple t_res); firstn 6 (fst (encodeTriple t_lit))]
    ([wire.decoded t_res], Some (errorString "predicate: EOF")) /\
  fst ([wire.decoded t_res],
       Some (errorString "predicate: EOF")) =
  [wire.decoded t_res].
Proof.
  pose proof (is_stream_encodeTriple t_res t_res_encodable) as H1.
  assert (H3 : Decode binary_run
                 [fst (encodeTriple t_res); firstn 6 (fst (encodeTriple t_lit))]
                 ([wire.decoded t_res],
                  Some (errorString "predicate: EOF"))).
  { eexists. split; [apply Permutation_refl|reflexivity]. }
  split; [exact H1|]. split; [exact cut_not_stream|]. split; [exact H3|].
  exact (proj1 (proj2 (proj2 dataset_Decode_partial_success) _ _ _ _ H1 cut_not_stream
                  (or_introl H3))).
Defined.

End DatasetProperties.

(* ===================================================================== *)
(** ** Snapshots of the store                                             *)
(* ===================================================================== *)

Section Store.
Import rdf store.

Lemma arena_Adds batches :
  forall src, arena (fold_left Add batches src) = arena src ++ List.concat batches.
Proof.
  induction batches as [|b batches IH]; intros src; cbn [fold_left List.concat].
  - now rewrite app_nil_r.
  - rewrite IH. unfold Add. cbn [arena]. now rewrite app_assoc.
Qed.

Lemma view_own src : view src (Source_Snapshot src) = arena src.
Proof. unfold view, Source_Snapshot. cbn [generation]. apply firstn_all. Qed.

Lemma view_Adds src batches :
  view (fold_left Add batches src) (Source_Snapshot src) = arena src.
Proof.
  unfold view, Source_Snapshot. cbn [generation].
  rewrite arena_Adds, firstn_app, Nat.sub_diag, firstn_all. cbn [firstn].
  apply app_nil_r.
Qed.

(** C5: a snapshot taken from a source that holds N triples counts N
    triples, and after any [Add] calls on the source, M triples in all,
    it reads the same triples, gives the same answers to [WithPredObj] and
    still counts N, while a snapshot taken afterwards counts N + M. *)
Theorem snapshot_isolation (src : Source) (batches : list (list triple)) :
  let S := Source_Snapshot src in
  let src' := fold_left Add batches src in
  let N := List.length (arena src) in
  let M := List.length (List.concat batches) in
  Count src S = N /\
  view src' S = view src S /\
  (forall p o, WithPredObj src' S p o = WithPredObj src S p o) /\
  Count src' S = N /\
  Count src' (Source_Snapshot src') = N + M.
Proof.
  cbv zeta. unfold Count, WithPredObj.
  rewrite view_Adds, !view_own, arena_Adds, length_app.
  repeat split; reflexivity.
Qed.

End Store.

(* ===================================================================== *)
(** ** The look-ahead of the bounded reads                                *)
(* ===================================================================== *)

Section Lexer.
Import lexer.




Lemma real_after_space_spec closers rest :
  real_after_space closers rest = true <->
  skip_space rest = "" \/
  exists d rest', skip_space rest = String d rest' /\ In d closers.
Proof.
  unfold real_after_space.
  destruct (skip_space rest) as [|d rest'].
  - split; auto.
  - rewrite existsb_exists. split.
    + intros (x & Hin & Hx). apply Ascii.eqb_eq in Hx. subst x. right. eauto.
    + intros [H|(d' & r' & [= -> ->] & Hin)]; [discriminate|].
      exists d'. split; [assumption|apply Ascii.eqb_refl].
Qed.










(** The look-ahead that passes over whitespace decides by the next
    character when no whitespace follows the terminator, and with it the
    two reads give what every case of the two tests expects: the rule
    above and the tests agree. *)
Lemma real_after_space_passes_tests :
  (forall cs, decides_by_next cs (real_after_space cs)) /\
  passes (read IRI_body (real_after_space (closers IRI_body)))
    TestLexerReadIRI_cases = true /\
  passes (read literal_body (real_after_space (closers literal_body)))
    TestLexerReadStringLiteral_cases = true.
Proof.
  split; [|split; reflexivity].
  intros cs [|d rest] Hspace; [reflexivity|].
  unfold real_after_space, closes. cbn [starts_with_space] in Hspace.
  cbn [skip_space]. now rewrite Hspace.
Qed.

End Lexer.

(* ===================================================================== *)
(** ** Concrete runs                                                      *)
(* ===================================================================== *)

Section Runs.
Import rdf io codec fixtures.

(** The frame of [t_lit] is 39 bytes long; the six fields in turn. *)
Example cut_in_subject :
  dataset.binary_run (firstn 3 (fst (encodeTriple t_lit))) =
  ([], Some (errorString "subject: unexpected EOF")).
Proof. reflexivity. Qed.

Example cut_in_predicate :
  dataset.binary_run (firstn 12 (fst (encodeTriple t_lit))) =
  ([], Some (errorString "predicate: triplestore: binary: cannot decode word")).
Proof. reflexivity. Qed.

Example cut_before_kind :
  dataset.binary_run (firstn 14 (fst (encodeTriple t_lit))) =
  ([], Some (errorString "object type: EOF")).
Proof. reflexivity. Qed.

Example cut_in_literal_type :
  dataset.binary_run (firstn 19 (fst (encodeTriple t_lit))) =
  ([], Some (errorString "literate type: triplestore: binary: cannot decode word")).
Proof. reflexivity. Qed.

Example cut_in_literal_value :
  dataset.binary_run (firstn 35 (fst (encodeTriple t_lit))) =
  ([], Some (errorString "literate: triplestore: binary: cannot decode word")).
Proof. reflexivity. Qed.

Example cut_in_resource :
  dataset.binary_run (firstn 17 (fst (encodeTriple t_res))) =
  ([], Some (errorString "resource: unexpected EOF")).
Proof. reflexivity. Qed.

Example sample_round_trip :
  dataset.binary_run (fst (Encode (W := list byte) [] sample)) =
  (map wire.decoded sample, None).
Proof. reflexivity. Qed.

(** A sink that rejects the second write: [Encode] returns its error and
    the first frame stays written. *)
Example Encode_write_rejected :
  Encode (mkLimited [] 1) [t_res; t_lit] =
  (mkLimited (fst (encodeTriple t_res)) 0, Some (errorString "write rejected")).
Proof. reflexivity. Qed.

Example line_of_resource :
  ntriples.line "xsd:dateTime" t_res =
  ("<me> <knows> <you> ." ++ ntriples.newline)%string.
Proof. reflexivity. Qed.

Example line_of_string_literal :
  ntriples.line "xsd:dateTime" t_lit =
  ("<me> <name> " ++ ntriples.quote ++ "donald" ++ ntriples.quote ++ " ."
   ++ ntriples.newline)%string.
Proof. reflexivity. Qed.

Example line_of_integer_literal :
  ntriples.line "xsd:dateTime"
    (mkTriple "me" "age" (mkObject true "" (mkLiteral XsdInteger "32"))) =
  ("<me> <age> " ++ ntriples.quote ++ "32" ++ ntriples.quote
   ++ "^^<http://www.w3.org/2001/XMLSchema#integer> ." ++ ntriples.newline)%string.
Proof. reflexivity. Qed.

End Runs.

(* ===================================================================== *)
(** ** More on triple equality                                            *)
(* ===================================================================== *)

Section EqualityMore.
Import rdf model wire.

Lemma same_object_sym o1 o2 : same_object o1 o2 -> same_object o2 o1.
Proof.
  unfold same_object. intros [Hl H]. rewrite <- Hl.
  split; [auto|]. destruct (isLit o1); intuition congruence.
Qed.

Lemma same_object_trans o1 o2 o3 :
  same_object o1 o2 -> same_object o2 o3 -> same_object o1 o3.
Proof.
  unfold same_object. intros [Hl1 H1] [Hl2 H2]. rewrite <- Hl1 in H2.
  split; [congruence|]. destruct (isLit o1); intuition congruence.
Qed.

Lemma equal_triples_sym a b : equal_triples a b -> equal_triples b a.
Proof.
  unfold equal_triples. rewrite !Equal_spec.
  intros (Hs & Hp & Ho). auto using same_object_sym.
Qed.

Lemma equal_triples_trans a b c :
  equal_triples a b -> equal_triples b c -> equal_triples a c.
Proof.
  unfold equal_triples. rewrite !Equal_spec.
  intros (Hs1 & Hp1 & Ho1) (Hs2 & Hp2 & Ho2).
  split; [congruence|]. split; [congruence|].
  exact (same_object_trans _ _ _ Ho1 Ho2).
Qed.

(** X1: [Equal] gives the same answer whichever of two triples is the
    receiver, and is transitive. *)
Theorem Equal_symmetric_transitive :
  (forall t1 t2,
     Equal (Some t1) (PtrTriple (Some t2)) = Equal (Some t2) (PtrTriple (Some t1))) /\
  (forall t1 t2 t3,
     Equal (Some t1) (PtrTriple (Some t2)) = Some true ->
     Equal (Some t2) (PtrTriple (Some t3)) = Some true ->
     Equal (Some t1) (PtrTriple (Some t3)) = Some true).
Proof.
  split.
  - intros t1 t2.
    destruct (Equal_total t1 t2) as ([|] & H12), (Equal_total t2 t1) as ([|] & H21);
      rewrite H12, H21; try reflexivity.
    + apply equal_triples_sym in H12. unfold equal_triples in H12. congruence.
    + apply equal_triples_sym in H21. unfold equal_triples in H21. congruence.
  - intros t1 t2 t3. apply equal_triples_trans.
Qed.

Lemma Equal_symmetric_transitive_witness :
  Equal (Some fixtures.t_lit)
        (PtrTriple (Some (mkTriple "me" "name"
                            (mkObject true "ignored" (mkLiteral XsdString "donald")))))
    = Some true /\
  Equal (Some (mkTriple "me" "name"
                 (mkObject true "ignored" (mkLiteral XsdString "donald"))))
        (PtrTriple (Some (mkTriple "me" "name"
                            (mkObject true "other" (mkLiteral XsdString "donald")))))
    = Some true /\
  Equal (Some fixtures.t_lit)
        (PtrTriple (Some (mkTriple "me" "name"
                            (mkObject true "other" (mkLiteral XsdString "donald")))))
    = Some true.
Proof.
  assert (H1 : Equal (Some fixtures.t_lit)
                 (PtrTriple (Some (mkTriple "me" "name"
                                     (mkObject true "ignored"
                                        (mkLiteral XsdString "donald")))))
               = Some true) by reflexivity.
  assert (H2 : Equal (Some (mkTriple "me" "name"
                              (mkObject true "ignored" (mkLiteral XsdString "donald"))))
                 (PtrTriple (Some (mkTriple "me" "name"
                                     (mkObject true "other"
                                        (mkLiteral XsdString "donald")))))
               = Some true) by reflexivity.
  split; [exact H1|]. split; [exact H2|].
  exact (proj2 Equal_symmetric_transitive _ _ _ H1 H2).
Defined.

(** X2: [Equal] panics exactly when the receiver is a triple and the
    argument holds a nil [*triple]; in every other case it returns. *)
Theorem Equal_panics_iff t other :
  Equal t other = None <-> (exists t', t = Some t') /\ other = PtrTriple None.
Proof.
  split.
  - destruct t as [t|]; [|discriminate].
    destruct other as [|[o|]]; try discriminate.
    + unfold Equal. destruct (negb _); [discriminate|]. destruct (negb _); discriminate.
    + eauto.
  - intros ((t' & ->) & ->). reflexivity.
Qed.

End EqualityMore.

(* ===================================================================== *)
(** ** More on the binary codec                                           *)
(* ===================================================================== *)

Section EncodeAnyWriter.
Import rdf io binary codec wire.

Context {W : Type} `{Writer W}.

(** X5: encoding a list of triples that is the concatenation of two
    lists does what two calls of [Encode] on the same writer do, the
    second call being made only when the first returned no error. *)
Theorem Encode_app (l1 l2 : list triple) :
  forall w : W,
    Encode w (l1 ++ l2) =
    match Encode w l1 with
    | (w1, None) => Encode w1 l2
    | (w1, Some e) => (w1, Some e)
    end.
Proof.
  induction l1 as [|t l1 IH]; intros w; cbn [app Encode]; [reflexivity|].
  destruct (encodeTriple t) as [b err]. destruct err; [reflexivity|].
  destruct (Write w b) as [w1 err1]. destruct err1; [reflexivity|].
  apply IH.
Qed.

Lemma Encode_error_inv (tris : list triple) :
  forall (w w' : W) e,
    Encode w tris = (w', Some e) ->
    exists ts1 t ts2 w1,
      tris = ts1 ++ t :: ts2 /\ Encode w ts1 = (w1, None) /\
      Write w1 (fst (encodeTriple t)) = (w', Some e).
Proof.
  induction tris as [|t tris IH]; intros w w' e; cbn [Encode]; [discriminate|].
  pose proof (encodeTriple_no_error t) as Hno.
  destruct (encodeTriple t) as [b err] eqn:Et. cbn [snd] in Hno. subst err.
  destruct (Write w b) as [w1 err1] eqn:Ew. destruct err1 as [e1|].
  - intros [= <- <-]. exists [], t, tris, w.
    rewrite Et. cbn [fst app Encode]. auto.
  - intros Hrest. apply IH in Hrest.
    destruct Hrest as (ts1 & t' & ts2 & w2 & -> & He & Hw).
    exists (t :: ts1), t', ts2, w2. repeat split; [|exact Hw].
    cbn [Encode]. now rewrite Et, Ew.
Qed.

Lemma Encode_error_at (ts1 : list triple) :
  forall (w w1 w' : W) t ts2 e,
    Encode w ts1 = (w1, None) ->
    Write w1 (fst (encodeTriple t)) = (w', Some e) ->
    Encode w (ts1 ++ t :: ts2) = (w', Some e).
Proof.
  induction ts1 as [|a ts1 IH]; intros w w1 w' t ts2 e He Hw; cbn [app Encode] in *.
  - injection He as <-.
    pose proof (encodeTriple_no_error t) as Hno.
    destruct (encodeTriple t) as [b err]. cbn [fst snd] in *. subst err.
    now rewrite Hw.
  - destruct (encodeTriple a) as [b err]. destruct err; [discriminate|].
    destruct (Write w b) as [wa erra]. destruct erra; [discriminate|].
    eapply IH; eassumption.
Qed.

(** X6: [Encode] returns an error exactly when a write is rejected: the
    frames of the triples before have been written without error, the
    error is the one this write returned, the writer is left as this
    write left it, and nothing is written for the triples after. *)
Theorem Encode_error_iff (tris : list triple) (w w' : W) e :
  Encode w tris = (w', Some e) <->
  exists ts1 t ts2 w1,
    tris = ts1 ++ t :: ts2 /\ Encode w ts1 = (w1, None) /\
    Write w1 (fst (encodeTriple t)) = (w', Some e).
Proof.
  split.
  - apply Encode_error_inv.
  - intros (ts1 & t & ts2 & w1 & -> & He & Hw).
    eapply Encode_error_at; eassumption.
Qed.

End EncodeAnyWriter.

Section DecodeMore.
Import rdf io binary codec wire.

Lemma ReadFull_le l n :
  n <= List.length l -> ReadFull l n = (skipn n l, (firstn n l, None)).
Proof.
  intros Hn. unfold ReadFull.
  destruct n as [|n]; [reflexivity|].
  destruct l as [|x l]; [cbn in Hn; lia|].
  destruct (Nat.ltb_spec (List.length (x :: l)) (S n)); [lia|reflexivity].
Qed.

Lemma ReadFull_err_drained l n r' bs e :
  ReadFull l n = (r', (bs, Some e)) -> r' = [].
Proof.
  unfold ReadFull. destruct n; [discriminate|].
  destruct l as [|x l]; [now intros [= <- _ _]|].
  destruct (List.length (x :: l) <? S n); [now intros [= <- _ _]|discriminate].
Qed.

Lemma readWord_err_drained dec dec' w e :
  readWord dec = (dec', (w, Some e)) -> r dec' = [].
Proof.
  unfold readWord.
  destruct (ReadFull (r dec) 4) as [r1 [bs err]] eqn:E1.
  destruct err as [e1|].
  - intros [= <- _ _]. cbn [r]. eapply ReadFull_err_drained; eassumption.
  - destruct (ReadFull r1 _) as [r2 [w2 err2]] eqn:E2.
    destruct err2 as [e2|]; [|discriminate].
    intros [= <- _ _]. cbn [r]. eapply ReadFull_err_drained; eassumption.
Qed.

(** An iteration that leaves the loop leaves nothing to read. *)
Lemma decodeTriple_drained dec dec' done err :
  decodeTriple dec = (dec', (done, err)) ->
  done = true \/ err <> None -> r dec' = [].
Proof.
  unfold decodeTriple.
  destruct (readWord dec) as [d1 [w1 e1]] eqn:E1.
  destruct e1 as [e1|].
  { apply readWord_err_drained in E1. destruct e1; now intros [= <- _ _]. }
  clear E1.
  destruct (readWord d1) as [d2 [w2 e2]] eqn:E2.
  destruct e2 as [e2|].
  { apply readWord_err_drained in E2. now intros [= <- _ _]. }
  clear E2.
  destruct (ReadFull (r d2) 1) as [r3 [bs e3]] eqn:E3.
  destruct e3 as [e3|].
  { apply ReadFull_err_drained in E3. now intros [= <- _ _]. }
  destruct (Byte.eqb (hd x00 bs) resourceTypeEncoding).
  - destruct (readWord _) as [d4 [w4 e4]] eqn:E4.
    destruct e4 as [e4|].
    + apply readWord_err_drained in E4. now intros [= <- _ _].
    + intros [= _ <- <-] [|Hn]; [discriminate|now elim Hn].
  - destruct (readWord _) as [d4 [w4 e4]] eqn:E4.
    destruct e4 as [e4|].
    { apply readWord_err_drained in E4. now intros [= <- _ _]. }
    clear E4.
    destruct (readWord d4) as [d5 [w5 e5]] eqn:E5.
    destruct e5 as [e5|].
    + apply readWord_err_drained in E5. now intros [= <- _ _].
    + intros [= _ <- <-] [|Hn]; [discriminate|now elim Hn].
Qed.

Lemma Decode_loop_drained fuel :
  forall dec dec' ts err,
    Decode_loop fuel dec = Some (dec', (ts, err)) ->
    r dec' = [] /\ (err = None -> ts = triples dec').
Proof.
  induction fuel as [|fuel IH]; intros dec dec' ts err H; [discriminate|].
  cbn [Decode_loop] in H.
  destruct (decodeTriple dec) as [d [done e]] eqn:E.
  destruct done.
  - injection H as <- <- <-. split; [|reflexivity].
    eapply decodeTriple_drained; [exact E|now left].
  - destruct e as [e|].
    + injection H as <- <- <-. split; [|discriminate].
      eapply decodeTriple_drained; [exact E|right; discriminate].
    + eapply IH; eassumption.
Qed.

(** X8: whatever [Decode] returned, it has read the stream to its end,
    and one more [Decode] on the same decoder returns the triples the
    decoder holds and no error: the same list again after a clean return,
    and after an error the triples that were decoded before it. *)
Theorem Decode_again dec dec' ts err :
  Decode dec = Some (dec', (ts, err)) ->
  r dec' = [] /\
  (err = None -> ts = triples dec') /\
  Decode dec' = Some (dec', (triples dec', None)).
Proof.
  intros H. apply Decode_loop_drained in H. destruct H as [Hr Hts].
  split; [exact Hr|]. split; [exact Hts|].
  destruct dec' as [r' acc]. cbn [r triples] in *. subst r'. reflexivity.
Qed.

Lemma Decode_again_witness :
  Decode (NewBinaryDecoder
            (fst (encodeTriple fixtures.t_res) ++ firstn 6 (fst (encodeTriple fixtures.t_lit)))) =
    Some (mkDecoder [] [decoded fixtures.t_res], ([], Some (errorString "predicate: EOF"))) /\
  Decode (mkDecoder [] [decoded fixtures.t_res]) =
    Some (mkDecoder [] [decoded fixtures.t_res], ([decoded fixtures.t_res], None)).
Proof.
  assert (H : Decode (NewBinaryDecoder
                (fst (encodeTriple fixtures.t_res) ++
                 firstn 6 (fst (encodeTriple fixtures.t_lit)))) =
              Some (mkDecoder [] [decoded fixtures.t_res],
                    ([], Some (errorString "predicate: EOF")))) by reflexivity.
  split; [exact H|].
  exact (proj2 (proj2 (Decode_again _ _ _ _ H))).
Defined.

End DecodeMore.

Section DecodeAccumulates.
Import rdf io binary codec wire.

Lemma readWord_keeps dec dec' res :
  readWord dec = (dec', res) -> triples dec' = triples dec.
Proof.
  unfold readWord.
  destruct (ReadFull (r dec) 4) as [r1 [bs err]].
  destruct err; [now intros [= <- _]|].
  destruct (ReadFull r1 _) as [r2 [w2 err2]].
  destruct err2; now intros [= <- _].
Qed.

(** [readWord] does not look at the triples the decoder holds. *)
Lemma readWord_mk bs acc :
  readWord (mkDecoder bs acc) =
  (mkDecoder (r (fst (readWord (mkDecoder bs [])))) acc,
   snd (readWord (mkDecoder bs []))).
Proof.
  unfold readWord. cbn [r triples].
  destruct (ReadFull bs 4) as [r1 [b err]].
  destruct err; [reflexivity|].
  destruct (ReadFull r1 _) as [r2 [w2 err2]].
  destruct err2; reflexivity.
Qed.

Lemma readWord_nil_inv bs d res :
  readWord (mkDecoder bs []) = (d, res) -> d = mkDecoder (r d) [].
Proof.
  intros H. apply readWord_keeps in H. destruct d as [rd td].
  cbn [r triples] in *. now subst td.
Qed.

(** Neither does an iteration: it only appends to them. *)
Lemma decodeTriple_mk bs acc :
  decodeTriple (mkDecoder bs acc) =
  (mkDecoder (r (fst (decodeTriple (mkDecoder bs []))))
     (acc ++ triples (fst (decodeTriple (mkDecoder bs [])))),
   snd (decodeTriple (mkDecoder bs []))).
Proof.
  unfold decodeTriple.
  rewrite (readWord_mk bs acc).
  destruct (readWord (mkDecoder bs [])) as [d1 [w1 e1]] eqn:E1.
  apply readWord_nil_inv in E1. destruct d1 as [r1 t1]. injection E1 as ->.
  cbn [fst snd r triples].
  destruct e1 as [e1|]; [destruct e1; cbn [fst snd r triples]; now rewrite app_nil_r|].
  rewrite (readWord_mk r1 acc).
  destruct (readWord (mkDecoder r1 [])) as [d2 [w2 e2]] eqn:E2.
  apply readWord_nil_inv in E2. destruct d2 as [r2 t2]. injection E2 as ->.
  cbn [fst snd r triples].
  destruct e2 as [e2|]; [cbn [fst snd r triples]; now rewrite app_nil_r|].
  destruct (ReadFull r2 1) as [r3 [b3 e3]].
  destruct e3 as [e3|]; [cbn [fst snd r triples]; now rewrite app_nil_r|].
  destruct (Byte.eqb (hd x00 b3) resourceTypeEncoding).
  - rewrite (readWord_mk r3 acc).
    destruct (readWord (mkDecoder r3 [])) as [d4 [w4 e4]] eqn:E4.
    apply readWord_nil_inv in E4. destruct d4 as [r4 t4]. injection E4 as ->.
    cbn [fst snd r triples].
    destruct e4; cbn [fst snd r triples app]; now rewrite ?app_nil_r.
  - rewrite (readWord_mk r3 acc).
    destruct (readWord (mkDecoder r3 [])) as [d4 [w4 e4]] eqn:E4.
    apply readWord_nil_inv in E4. destruct d4 as [r4 t4]. injection E4 as ->.
    cbn [fst snd r triples].
    destruct e4; [cbn [fst snd r triples]; now rewrite app_nil_r|].
    rewrite (readWord_mk r4 acc).
    destruct (readWord (mkDecoder r4 [])) as [d5 [w5 e5]] eqn:E5.
    apply readWord_nil_inv in E5. destruct d5 as [r5 t5]. injection E5 as ->.
    cbn [fst snd r triples].
    destruct e5; cbn [fst snd r triples app]; now rewrite ?app_nil_r.
Qed.

(** The loop on a decoder that already holds triples: the same run, with
    these triples in front of what the decoder holds at the end. *)
Lemma Decode_loop_mk fuel :
  forall bs a acc,
    Decode_loop fuel (mkDecoder bs (acc ++ a)) =
    match Decode_loop fuel (mkDecoder bs a) with
    | Some (d, (ts, None)) => Some (mkDecoder (r d) (acc ++ triples d), (acc ++ ts, None))
    | Some (d, (ts, Some e)) => Some (mkDecoder (r d) (acc ++ triples d), (ts, Some e))
    | None => None
    end.
Proof.
  induction fuel as [|fuel IH]; intros bs a acc; [reflexivity|].
  cbn [Decode_loop].
  rewrite (decodeTriple_mk bs (acc ++ a)), (decodeTriple_mk bs a).
  destruct (decodeTriple (mkDecoder bs [])) as [[r0 t0] [done err]].
  cbn [fst snd r triples].
  destruct done; [now rewrite <- app_assoc|].
  destruct err; [now rewrite <- app_assoc|].
  rewrite <- app_assoc. apply IH.
Qed.

End DecodeAccumulates.

Section StreamsCompose.
Import rdf io binary codec wire dataset.

Lemma binary_run_ok_stream bs ts : binary_run bs = (ts, None) -> is_stream bs ts.
Proof.
  unfold binary_run.
  destruct (codec.Decode (NewBinaryDecoder bs)) as [[d res]|] eqn:E.
  - intros ->. apply Decode_loop_ok_inv in E. now destruct E as (ts' & Hs & ->).
  - destruct (Decode_total (NewBinaryDecoder bs)) as (res & H). congruence.
Qed.

(** X7: a stream that is a cleanly decoding stream followed by more
    bytes decodes as the two parts do: to the triples of the first part
    followed by those of the second when the second decodes cleanly, and
    to the error of the second part, with no triple, when it does not. *)
Theorem binary_run_app bs1 bs2 ts1 :
  binary_run bs1 = (ts1, None) ->
  binary_run (bs1 ++ bs2) =
  match binary_run bs2 with
  | (ts2, None) => (ts1 ++ ts2, None)
  | (ts2, Some e) => ([], Some e)
  end.
Proof.
  intros H1. apply binary_run_ok_stream in H1.
  unfold binary_run.
  destruct (Decode_total (NewBinaryDecoder bs2)) as ([d2 [ts2 err2]] & H2).
  rewrite H2.
  assert (Hacc : codec.Decode (mkDecoder bs2 ([] ++ ts1)) =
                 match err2 with
                 | None => Some (mkDecoder (r d2) (ts1 ++ triples d2), (ts1 ++ ts2, None))
                 | Some e => Some (mkDecoder (r d2) (ts1 ++ triples d2), (ts2, Some e))
                 end).
  { unfold codec.Decode, NewBinaryDecoder in *. cbn [r app] in *.
    rewrite <- (app_nil_r ts1) at 1. rewrite Decode_loop_mk, H2.
    now destruct err2. }
  unfold NewBinaryDecoder.
  destruct err2 as [e|].
  - rewrite (Decode_after_stream bs1 ts1 bs2 [] _ H1 Hacc).
    apply Decode_loop_err_inv in H2. now destruct H2 as [-> _].
  - now rewrite (Decode_after_stream bs1 ts1 bs2 [] _ H1 Hacc).
Qed.

Lemma binary_run_app_witness :
  binary_run (fst (encodeTriple fixtures.t_res)) = ([decoded fixtures.t_res], None) /\
  binary_run (fst (encodeTriple fixtures.t_res) ++ fst (encodeTriple fixtures.t_lit)) =
  ([decoded fixtures.t_res] ++ [decoded fixtures.t_lit], None).
Proof.
  assert (H : binary_run (fst (encodeTriple fixtures.t_res)) =
              ([decoded fixtures.t_res], None)) by reflexivity.
  split; [exact H|].
  exact (binary_run_app _ (fst (encodeTriple fixtures.t_lit)) _ H).
Defined.

Lemma is_frame_canonical f t : is_frame f t -> encodable t /\ decoded t = t.
Proof.
  destruct 1 as [s p rid Hs Hp Hrid | s p k ty v Hs Hp Hk Hty Hv];
    unfold encodable, decoded, len, fits in *;
    cbn [sub pred obj isLit lit typ val resourceID];
    rewrite !length_string_of_list_byte; auto.
Qed.

Lemma is_stream_canonical bs ts :
  is_stream bs ts -> Forall encodable ts /\ map decoded ts = ts.
Proof.
  induction 1 as [|f t bs ts Hf _ [IH1 IH2]]; [now split|].
  apply is_frame_canonical in Hf. destruct Hf as [He Hd].
  split; [now constructor|]. cbn [map]. now rewrite Hd, IH2.
Qed.

(** X9: the triples of a stream that decodes cleanly all have strings
    that a [wordLength] holds, and encoding them and decoding the bytes
    written gives the very same triples, in the same order. *)
Theorem decode_encode_decode bs ts :
  binary_run bs = (ts, None) ->
  Forall encodable ts /\
  exists bs',
    Encode (W := list byte) [] ts = (bs', None) /\ binary_run bs' = (ts, None).
Proof.
  intros H. apply binary_run_ok_stream, is_stream_canonical in H.
  destruct H as [Henc Hmap]. split; [exact Henc|].
  eexists. split; [apply Encode_Buffer|].
  cbn [app]. apply binary_run_stream.
  rewrite <- Hmap at 2. now apply encoded_stream.
Qed.

Lemma decode_encode_decode_witness :
  binary_run fixtures.kind2_stream =
    ([mkTriple "s" "p" (mkObject true "" (mkLiteral "t" "v"))], None) /\
  exists bs',
    Encode (W := list byte) [] [mkTriple "s" "p" (mkObject true "" (mkLiteral "t" "v"))]
      = (bs', None) /\
    binary_run bs' = ([mkTriple "s" "p" (mkObject true "" (mkLiteral "t" "v"))], None).
Proof.
  assert (H : binary_run fixtures.kind2_stream =
              ([mkTriple "s" "p" (mkObject true "" (mkLiteral "t" "v"))], None))
    by reflexivity.
  split; [exact H|].
  exact (proj2 (decode_encode_decode _ _ H)).
Defined.

End StreamsCompose.

Section EncodersAndEqual.
Import rdf io binary codec wire model.

(** X3: two triples that are [Equal] are written alike by both encoders:
    the same bytes by [encodeTriple], the same text by the N-Triples
    encoder; the strings of the variant that is not active are not
    written. *)
Theorem encoders_respect_Equal t1 t2 :
  equal_triples t1 t2 ->
  encodeTriple t1 = encodeTriple t2 /\
  forall XsdDateTime, ntriples.line XsdDateTime t1 = ntriples.line XsdDateTime t2.
Proof.
  intros H. apply Equal_spec in H. destruct H as (Hs & Hp & Hl & Ho).
  destruct t1 as [s1 p1 [il1 rid1 [ty1 v1]]], t2 as [s2 p2 [il2 rid2 [ty2 v2]]].
  cbn [sub pred obj isLit resourceID lit typ val] in *. subst s2 p2 il2.
  unfold encodeTriple, ntriples.line, Subject, Predicate, Object, Literal, ResourceID,
    Type_, Value.
  cbn [sub pred obj isLit resourceID lit typ val].
  destruct il1; cbn [negb].
  - destruct Ho as [-> ->]. split; reflexivity.
  - subst rid2. split; reflexivity.
Qed.

Lemma encoders_respect_Equal_witness :
  equal_triples fixtures.t_lit
    (mkTriple "me" "name" (mkObject true "ignored" (mkLiteral XsdString "donald"))) /\
  encodeTriple fixtures.t_lit =
  encodeTriple (mkTriple "me" "name" (mkObject true "ignored" (mkLiteral XsdString "donald"))).
Proof.
  assert (H : equal_triples fixtures.t_lit
                (mkTriple "me" "name"
                   (mkObject true "ignored" (mkLiteral XsdString "donald"))))
    by reflexivity.
  split; [exact H|].
  exact (proj1 (encoders_respect_Equal _ _ H)).
Defined.

(** X4: the binary encoding tells triples apart: two triples whose
    strings a [wordLength] holds and that have the same frame are
    [Equal]. *)
Theorem encodeTriple_injective t1 t2 :
  encodable t1 -> encodable t2 ->
  fst (encodeTriple t1) = fst (encodeTriple t2) ->
  equal_triples t1 t2.
Proof.
  intros H1 H2 Hf.
  pose proof (decodeTriple_frame _ _ [] [] (is_frame_encodeTriple t1 H1)) as D1.
  pose proof (decodeTriple_frame _ _ [] [] (is_frame_encodeTriple t2 H2)) as D2.
  rewrite Hf, D2 in D1. injection D1 as D1.
  apply equal_triples_trans with (decoded t1); [apply equal_triples_decoded|].
  rewrite <- D1. apply equal_triples_sym, equal_triples_decoded.
Qed.

Lemma encodeTriple_injective_witness :
  encodable fixtures.t_lit /\
  encodable (mkTriple "me" "name" (mkObject true "ignored" (mkLiteral XsdString "donald"))) /\
  fst (encodeTriple fixtures.t_lit) =
  fst (encodeTriple
         (mkTriple "me" "name" (mkObject true "ignored" (mkLiteral XsdString "donald")))) /\
  equal_triples fixtures.t_lit
    (mkTriple "me" "name" (mkObject true "ignored" (mkLiteral XsdString "donald"))).
Proof.
  assert (H2 : encodable
                 (mkTriple "me" "name"
                    (mkObject true "ignored" (mkLiteral XsdString "donald"))))
    by (repeat constructor).
  split; [exact t_lit_encodable|]. split; [exact H2|]. split; [reflexivity|].
  exact (encodeTriple_injective _ _ t_lit_encodable H2 eq_refl).
Defined.

(** X10: what [readWord] reads back from the two writes that
    [encodeTriple] makes for a string: the first [len(s) mod 2^32] bytes
    of the string, the bytes after them staying unread; the whole string
    when it is shorter than [2 ^ 32] bytes. *)
Theorem readWord_writeWord s rest acc :
  let m := N.to_nat (wordLength (len s)) in
  readWord (mkDecoder (writeWord s ++ rest) acc) =
    (mkDecoder (skipn m (list_byte_of_string s) ++ rest) acc,
     (firstn m (list_byte_of_string s), None)) /\
  ((N.of_nat (len s) < 2 ^ 32)%N ->
   readWord (mkDecoder (writeWord s ++ rest) acc) =
     (mkDecoder rest acc, (list_byte_of_string s, None))).
Proof.
  cbv zeta.
  assert (Hlt : (wordLength (len s) < 2 ^ 32)%N).
  { unfold wordLength. apply N.mod_lt. discriminate. }
  assert (Hle : N.to_nat (wordLength (len s)) <= List.length (list_byte_of_string s)).
  { rewrite length_list_byte_of_string. fold (len s). unfold wordLength.
    pose proof (N.Div0.mod_le (N.of_nat (len s)) (2 ^ 32)). lia. }
  assert (Hgen : readWord (mkDecoder (writeWord s ++ rest) acc) =
    (mkDecoder (skipn (N.to_nat (wordLength (len s))) (list_byte_of_string s) ++ rest) acc,
     (firstn (N.to_nat (wordLength (len s))) (list_byte_of_string s), None))).
  { unfold readWord, writeWord. cbn [r triples]. rewrite <- app_assoc.
    rewrite (ReadFull_app (PutUint32 _) _ 4) by reflexivity.
    rewrite Uint32_PutUint32 by exact Hlt.
    rewrite ReadFull_le by (rewrite length_app; lia).
    rewrite skipn_app, firstn_app.
    replace (N.to_nat (wordLength (len s)) - List.length (list_byte_of_string s))
      with 0 by lia.
    cbn [skipn firstn]. now rewrite app_nil_r. }
  split; [exact Hgen|].
  intros Hs. rewrite Hgen. unfold wordLength.
  rewrite N.mod_small, Nat2N.id by exact Hs.
  unfold len. rewrite <- length_list_byte_of_string.
  now rewrite skipn_all, firstn_all.
Qed.

Lemma readWord_writeWord_witness :
  (N.of_nat (len "donald") < 2 ^ 32)%N /\
  readWord (mkDecoder (writeWord "donald" ++ [x01]) []) =
  (mkDecoder [x01] [], (list_byte_of_string "donald", None)).
Proof.
  assert (H : (N.of_nat (len "donald") < 2 ^ 32)%N) by reflexivity.
  split; [exact H|].
  exact (proj2 (readWord_writeWord "donald" [x01] []) H).
Defined.

End EncodersAndEqual.

(* ===================================================================== *)
(** ** More on the N-Triples encoder                                      *)
(* ===================================================================== *)

Section NTriplesAnyWriter.
Import rdf io ntriples.

Context {W : Type} `{Writer W}.
Variable XsdDateTime : string.

Lemma ntriples_Encode_seq (l1 l2 : list triple) :
  forall w : W,
    Encode XsdDateTime w (l1 ++ l2) =
    match Encode XsdDateTime w l1 with
    | (w1, None) => Encode XsdDateTime w1 l2
    | (w1, Some e) => (w1, Some e)
    end.
Proof.
  induction l1 as [|t l1 IH]; intros w; cbn [app Encode]; [reflexivity|].
  destruct (Write w _) as [w1 err1]. destruct err1; [reflexivity|apply IH].
Qed.

Lemma ntriples_Encode_error_inv (tris : list triple) :
  forall (w w' : W) e,
    Encode XsdDateTime w tris = (w', Some e) ->
    exists ts1 t ts2 w1,
      tris = ts1 ++ t :: ts2 /\ Encode XsdDateTime w ts1 = (w1, None) /\
      Write w1 (list_byte_of_string (line XsdDateTime t)) = (w', Some e).
Proof.
  induction tris as [|t tris IH]; intros w w' e; cbn [Encode]; [discriminate|].
  destruct (Write w _) as [w1 err1] eqn:Ew. destruct err1 as [e1|].
  - intros [= <- <-]. exists [], t, tris, w. cbn [app Encode]. auto.
  - intros Hrest. apply IH in Hrest.
    destruct Hrest as (ts1 & t' & ts2 & w2 & -> & He & Hw).
    exists (t :: ts1), t', ts2, w2. repeat split; [|exact Hw].
    cbn [Encode]. now rewrite Ew.
Qed.

End NTriplesAnyWriter.

Section NTriplesMore.
Import rdf io ntriples wire.

(** X11: on any writer, the N-Triples [Encode] of the concatenation of
    two lists does what two calls do, the second being made only when the
    first returned no error; and it returns an error exactly when a write
    is rejected, with the lines of the triples before written, the
    writer as that write left it and nothing written after. *)
Theorem ntriples_Encode_writes (W : Type) (Wr : Writer W) (XsdDateTime : string) :
  (forall (l1 l2 : list triple) (w : W),
     Encode XsdDateTime w (l1 ++ l2) =
     match Encode XsdDateTime w l1 with
     | (w1, None) => Encode XsdDateTime w1 l2
     | (w1, Some e) => (w1, Some e)
     end) /\
  (forall (tris : list triple) (w w' : W) e,
     Encode XsdDateTime w tris = (w', Some e) <->
     exists ts1 t ts2 w1,
       tris = ts1 ++ t :: ts2 /\ Encode XsdDateTime w ts1 = (w1, None) /\
       Write w1 (list_byte_of_string (line XsdDateTime t)) = (w', Some e)).
Proof.
  split; [intros l1 l2 w; apply ntriples_Encode_seq|].
  intros tris w w' e. split.
  - apply ntriples_Encode_error_inv.
  - intros (ts1 & t & ts2 & w1 & -> & He & Hw).
    rewrite ntriples_Encode_seq, He. cbn [Encode]. now rewrite Hw.
Qed.

(** X12: the type of a literal that is none of the boolean, dateTime and
    integer tags leaves no trace in what the N-Triples encoder writes:
    two literal triples that differ only in such types are written
    alike, though they are not [Equal]. *)
Theorem ntriples_type_not_written XsdDateTime s p rid1 rid2 ty1 ty2 v :
  ty1 <> XsdBoolean -> ty1 <> XsdDateTime -> ty1 <> XsdInteger ->
  ty2 <> XsdBoolean -> ty2 <> XsdDateTime -> ty2 <> XsdInteger ->
  line XsdDateTime (mkTriple s p (mkObject true rid1 (mkLiteral ty1 v))) =
  line XsdDateTime (mkTriple s p (mkObject true rid2 (mkLiteral ty2 v))) /\
  (ty1 <> ty2 ->
   Equal (Some (mkTriple s p (mkObject true rid1 (mkLiteral ty1 v))))
         (PtrTriple (Some (mkTriple s p (mkObject true rid2 (mkLiteral ty2 v)))))
   = Some false).
Proof.
  intros A1 A2 A3 B1 B2 B3. split.
  - rewrite !line_form. unfold object_text. cbn [sub pred obj isLit lit typ val].
    destruct (String.eqb_spec ty1 XsdBoolean); [contradiction|].
    destruct (String.eqb_spec ty1 XsdDateTime); [contradiction|].
    destruct (String.eqb_spec ty1 XsdInteger); [contradiction|].
    destruct (String.eqb_spec ty2 XsdBoolean); [contradiction|].
    destruct (String.eqb_spec ty2 XsdDateTime); [contradiction|].
    destruct (String.eqb_spec ty2 XsdInteger); [contradiction|].
    reflexivity.
  - intros Hne.
    destruct (Equal_total (mkTriple s p (mkObject true rid1 (mkLiteral ty1 v)))
                (mkTriple s p (mkObject true rid2 (mkLiteral ty2 v)))) as ([|] & HE);
      [|exact HE].
    apply Equal_spec in HE. cbn in HE. destruct HE as (_ & _ & _ & Hty & _).
    contradiction.
Qed.

Lemma ntriples_type_not_written_witness :
  XsdString <> XsdBoolean /\ XsdString <> "xsd:dateTime" /\ XsdString <> XsdInteger /\
  "myinteger" <> XsdBoolean /\ "myinteger" <> "xsd:dateTime" /\ "myinteger" <> XsdInteger /\
  line "xsd:dateTime" (mkTriple "me" "size" (mkObject true "" (mkLiteral XsdString "186"))) =
  line "xsd:dateTime" (mkTriple "me" "size" (mkObject true "" (mkLiteral "myinteger" "186"))).
Proof.
  assert (A1 : XsdString <> XsdBoolean) by discriminate.
  assert (A2 : XsdString <> "xsd:dateTime") by discriminate.
  assert (A3 : XsdString <> XsdInteger) by discriminate.
  assert (B1 : "myinteger" <> XsdBoolean) by discriminate.
  assert (B2 : "myinteger" <> "xsd:dateTime") by discriminate.
  assert (B3 : "myinteger" <> XsdInteger) by discriminate.
  split; [exact A1|]. split; [exact A2|]. split; [exact A3|].
  split; [exact B1|]. split; [exact B2|]. split; [exact B3|].
  exact (proj1 (ntriples_type_not_written "xsd:dateTime" "me" "size" "" ""
                  XsdString "myinteger" "186" A1 A2 A3 B1 B2 B3)).
Defined.

(** X13: the N-Triples encoder writes strings as they are, so the text
    does not tell where the subject ends: a triple whose subject ends
    with [> <] followed by [b] and another whose predicate starts with
    [b] followed by [> <] are written alike, though they are never
    [Equal]. *)
Theorem ntriples_line_not_injective XsdDateTime a b c o :
  line XsdDateTime (mkTriple (a ++ "> <" ++ b) c o) =
  line XsdDateTime (mkTriple a (b ++ "> <" ++ c) o) /\
  Equal (Some (mkTriple (a ++ "> <" ++ b) c o))
        (PtrTriple (Some (mkTriple a (b ++ "> <" ++ c) o))) = Some false.
Proof.
  split.
  - rewrite !line_form. cbn [sub pred obj]. now rewrite !append_assoc.
  - destruct (Equal_total (mkTriple (a ++ "> <" ++ b) c o)
                (mkTriple a (b ++ "> <" ++ c) o)) as ([|] & HE); [|exact HE].
    apply equal_triples_sub in HE. cbn [sub] in HE.
    apply (f_equal String.length) in HE. rewrite !length_append in HE.
    cbn [String.length] in HE. lia.
Qed.

End NTriplesMore.

(* ===================================================================== *)
(** ** More on the dataset decoder                                        *)
(* ===================================================================== *)

Section DatasetMore.
Import rdf io codec wire dataset.

(** X14: over no stream the dataset decoder returns no triple and no
    error, and over one stream exactly what the decoder of that stream
    returns, its triples and its error. *)
Theorem dataset_Decode_none_or_one (R : Type) (run : R -> list triple * option error) :
  (forall out, Decode run [] out <-> out = ([], None)) /\
  (forall rd out, Decode run [rd] out <-> out = run rd).
Proof.
  split.
  - intros out. split.
    + intros (arrival & Hp & ->). cbn [map] in Hp.
      apply Permutation_sym, Permutation_nil in Hp. now subst arrival.
    + intros ->. exists []. split; [constructor|reflexivity].
  - intros rd out.
    assert (Hone : Decode_received [worker run rd] = run rd).
    { unfold Decode_received, worker. destruct (run rd) as [ts [e|]]; reflexivity. }
    split.
    + intros (arrival & Hp & ->). cbn [map] in Hp.
      apply Permutation_sym, Permutation_length_1_inv in Hp. now subst arrival.
    + intros ->. exists [worker run rd]. split; [apply Permutation_refl|now rewrite Hone].
Qed.

(** X15: two possible returns of the dataset decoder over the same
    streams hold the same triples up to their order, as many of them,
    and either both hold an error or none does. *)
Theorem dataset_Decode_agree (R : Type) (run : R -> list triple * option error) rs out1 out2 :
  Decode run rs out1 -> Decode run rs out2 ->
  Permutation (fst out1) (fst out2) /\
  List.length (fst out1) = List.length (fst out2) /\
  (snd out1 = None <-> snd out2 = None).
Proof.
  intros H1 H2.
  apply dataset_Decode_spec in H1. apply dataset_Decode_spec in H2.
  destruct H1 as (P1 & N1 & _), H2 as (P2 & N2 & _).
  assert (P : Permutation (fst out1) (fst out2)).
  { eapply Permutation_trans; [exact P1|apply Permutation_sym; exact P2]. }
  split; [exact P|]. split; [now apply Permutation_length|].
  rewrite N1, N2. tauto.
Qed.

Lemma dataset_Decode_agree_witness :
  Decode binary_run
    [fst (encodeTriple fixtures.t_res); fst (encodeTriple fixtures.t_lit)]
    ([decoded fixtures.t_res; decoded fixtures.t_lit], None) /\
  Decode binary_run
    [fst (encodeTriple fixtures.t_res); fst (encodeTriple fixtures.t_lit)]
    ([decoded fixtures.t_lit; decoded fixtures.t_res], None) /\
  Permutation [decoded fixtures.t_res; decoded fixtures.t_lit]
              [decoded fixtures.t_lit; decoded fixtures.t_res].
Proof.
  assert (H1 : Decode binary_run
                 [fst (encodeTriple fixtures.t_res); fst (encodeTriple fixtures.t_lit)]
                 ([decoded fixtures.t_res; decoded fixtures.t_lit], None)).
  { eexists. split; [apply Permutation_refl|reflexivity]. }
  assert (H2 : Decode binary_run
                 [fst (encodeTriple fixtures.t_res); fst (encodeTriple fixtures.t_lit)]
                 ([decoded fixtures.t_lit; decoded fixtures.t_res], None)).
  { eexists. split; [apply perm_swap|reflexivity]. }
  split; [exact H1|]. split; [exact H2|].
  exact (proj1 (dataset_Decode_agree _ _ _ _ _ H1 H2)).
Defined.

(** X16: lists of triples whose strings a [wordLength] holds, each
    encoded into a buffer of its own, and the buffers decoded by the
    dataset decoder with the binary decoder: every possible return holds
    no error and the triples of all the lists up to their order, each
    [Equal] to the one that was encoded. *)
Theorem dataset_binary_roundtrip (lss : list (list triple)) out :
  Forall (Forall encodable) lss ->
  Decode binary_run (map (fun l => fst (codec.Encode (W := list byte) [] l)) lss) out ->
  snd out = None /\
  Permutation (fst out) (map decoded (List.concat lss)) /\
  multiset_Equal (List.concat lss) (fst out).
Proof.
  intros Henc H.
  assert (Hrun : forall l, In l lss ->
            binary_run (fst (codec.Encode (W := list byte) [] l)) = (map decoded l, None)).
  { intros l Hin. rewrite Encode_Buffer. cbn [fst app].
    apply binary_run_stream, encoded_stream.
    now apply (proj1 (Forall_forall _ _) Henc). }
  apply dataset_Decode_spec in H. destruct H as (P & N & _).
  assert (Hcat : List.concat
                   (map (fun rd => fst (binary_run rd))
                        (map (fun l => fst (codec.Encode (W := list byte) [] l)) lss)) =
                 map decoded (List.concat lss)).
  { rewrite map_map, concat_map. f_equal.
    apply map_ext_in. intros l Hin. now rewrite (Hrun l Hin). }
  rewrite Hcat in P.
  split; [|split; [exact P|]].
  - apply N. intros rd Hin. apply in_map_iff in Hin. destruct Hin as (l & <- & Hl).
    now rewrite (Hrun l Hl).
  - exists (map decoded (List.concat lss)). split; [exact P|].
    clear. induction (List.concat lss); cbn [map]; constructor;
      auto using equal_triples_decoded.
Qed.

Lemma dataset_binary_roundtrip_witness :
  Forall (Forall encodable) [[fixtures.t_res]; [fixtures.t_lit]] /\
  Decode binary_run
    (map (fun l => fst (codec.Encode (W := list byte) [] l))
         [[fixtures.t_res]; [fixtures.t_lit]])
    ([decoded fixtures.t_lit; decoded fixtures.t_res], None) /\
  multiset_Equal (List.concat [[fixtures.t_res]; [fixtures.t_lit]])
    [decoded fixtures.t_lit; decoded fixtures.t_res].
Proof.
  assert (H1 : Forall (Forall encodable) [[fixtures.t_res]; [fixtures.t_lit]]).
  { repeat constructor. }
  assert (H2 : Decode binary_run
                 (map (fun l => fst (codec.Encode (W := list byte) [] l))
                      [[fixtures.t_res]; [fixtures.t_lit]])
                 ([decoded fixtures.t_lit; decoded fixtures.t_res], None)).
  { eexists. split; [apply perm_swap|reflexivity]. }
  split; [exact H1|]. split; [exact H2|].
  exact (proj2 (proj2 (dataset_binary_roundtrip _ _ H1 H2))).
Defined.

End DatasetMore.

Section EncodeTwice.
Import rdf io binary codec wire dataset.

(** X17: two calls of the binary [Encode] on the same buffer, for lists
    of triples whose strings a [wordLength] holds, return no error, and
    the buffer then decodes to the triples of the first list followed by
    those of the second, each [Equal] to the one that was encoded. *)
Theorem Encode_twice_roundtrip (l1 l2 : list triple) :
  Forall encodable l1 -> Forall encodable l2 ->
  exists b1 b2,
    codec.Encode (W := list byte) [] l1 = (b1, None) /\
    codec.Encode b1 l2 = (b2, None) /\
    binary_run b2 = (map decoded (l1 ++ l2), None) /\
    Forall2 equal_triples (l1 ++ l2) (map decoded (l1 ++ l2)).
Proof.
  intros H1 H2.
  exists (List.concat (map (fun t => fst (encodeTriple t)) l1)),
    (List.concat (map (fun t => fst (encodeTriple t)) (l1 ++ l2))).
  split; [now rewrite Encode_Buffer|].
  split; [now rewrite Encode_Buffer, map_app, concat_app|].
  split.
  - apply binary_run_stream, encoded_stream. apply Forall_app. now split.
  - clear. induction (l1 ++ l2); cbn [map]; constructor; auto using equal_triples_decoded.
Qed.

Lemma Encode_twice_roundtrip_witness :
  Forall encodable [fixtures.t_res] /\ Forall encodable [fixtures.t_lit] /\
  exists b1 b2,
    codec.Encode (W := list byte) [] [fixtures.t_res] = (b1, None) /\
    codec.Encode b1 [fixtures.t_lit] = (b2, None) /\
    binary_run b2 = (map decoded ([fixtures.t_res] ++ [fixtures.t_lit]), None) /\
    Forall2 equal_triples ([fixtures.t_res] ++ [fixtures.t_lit])
      (map decoded ([fixtures.t_res] ++ [fixtures.t_lit])).
Proof.
  assert (H1 : Forall encodable [fixtures.t_res]) by (repeat constructor).
  assert (H2 : Forall encodable [fixtures.t_lit]) by (repeat constructor).
  split; [exact H1|]. split; [exact H2|].
  exact (Encode_twice_roundtrip _ _ H1 H2).
Defined.

End EncodeTwice.
